(** * AXI Stream FIFO ramp-wave test application (helloworld.c)

    A shallow embedding of [GenerateRampWave] and [main] of
    src/wksp/AWG_Example/src/helloworld.c, and the properties of the
    waveform generator and of the streaming loop.

    Machine integers are [Z] with the wrap-around written out. [float] is
    IEEE binary32 (precision 24, emax 128) computed with the operations of
    [SpecFloat]: each conversion, the division, the product and the sum
    are rounded on their own, to nearest, ties to even. The transmit
    buffer is a [list Z] read and written by index. The FIFO driver,
    which is not part of the application, is an interface the program is
    parametrised by, and every call is recorded in a trace. *)

From Stdlib Require Import ZArith List Lia Bool String.
From Stdlib Require Import QArith Qpower Qround Lqa.
From Stdlib Require Import Floats.SpecFloat.
From stdpp Require Import base list.
Import ListNotations.

Local Open Scope Z_scope.

(** ** Machine integers *)

(** [u32] arithmetic wraps modulo [2^32]. *)
Definition u32 (z : Z) : Z := z mod 2 ^ 32.

(** ** Results of C computations

    [Undefined] stands for an execution the C standard gives no meaning
    to (a float-to-integer conversion out of range, an access outside an
    array). *)
Inductive result (A : Type) : Type :=
| Ok (a : A)
| Undefined.
Arguments Ok {A} a.
Arguments Undefined {A}.

(** ** IEEE binary32 *)

Definition f32 : Type := spec_float.
Definition prec32 : Z := 24.
Definition emax32 : Z := 128.

(** Conversion of an unsigned integer to [float] (rounds above [2^24]). *)
Definition f32_of_u32 (n : Z) : f32 := binary_normalize prec32 emax32 n 0 false.
Definition f32_div : f32 -> f32 -> f32 := SFdiv prec32 emax32.
Definition f32_mul : f32 -> f32 -> f32 := SFmul prec32 emax32.
Definition f32_add : f32 -> f32 -> f32 := SFadd prec32 emax32.

(** The literal [0.5f]. *)
Definition f32_half : f32 := S754_finite false 8388608 (-24).

(** The integral part of a finite float, truncated toward zero. *)
Definition f32_trunc (m : positive) (e : Z) : Z :=
  match e with
  | Zneg p => Z.shiftr (Zpos m) (Zpos p)
  | _ => Z.shiftl (Zpos m) e
  end.

(** The cast [(u32) x]: defined when the truncated value fits [u32];
    NaN, the infinities and everything out of range are undefined. *)
Definition f32_to_u32 (x : f32) : result Z :=
  match x with
  | S754_zero _ => Ok 0
  | S754_finite s m e =>
      let t := f32_trunc m e in
      if s then (if t =? 0 then Ok 0 else Undefined)
      else if t <? 2 ^ 32 then Ok t else Undefined
  | S754_infinity _ | S754_nan => Undefined
  end.

(** ** GenerateRampWave *)

Definition NUM_SAMPLES : Z := 256.

(** [const u32 MAX_COUNT = 0x3FFF] *)
Definition MAX_COUNT : Z := 16383.

(** [scaleFactor = (float)MAX_COUNT / (NumSamples - 2)]; the subtraction
    is done in [u32]. *)
Definition scaleFactor (NumSamples : Z) : f32 :=
  f32_div (f32_of_u32 MAX_COUNT) (f32_of_u32 (u32 (NumSamples - 2))).

(** [rampValue = (u32)((i * scaleFactor) + 0.5f)] followed by the clamp
    to [MAX_COUNT]. *)
Definition rampValue (scale : f32) (i : Z) : result Z :=
  match f32_to_u32 (f32_add (f32_mul (f32_of_u32 i) scale) f32_half) with
  | Ok r => Ok (if MAX_COUNT <? r then MAX_COUNT else r)
  | Undefined => Undefined
  end.

(** The value stored at index [i]: the body of the loop up to the store. *)
Definition shiftedValue (NumSamples : Z) (scale : f32) (i : Z) : result Z :=
  if i =? u32 (NumSamples - 1) then Ok 0
  else
    match rampValue scale i with
    | Ok r => Ok (u32 (Z.shiftl r 18))
    | Undefined => Undefined
    end.

(** [Buffer[i] = v]; a store outside the array is undefined. *)
Definition store (Buffer : list Z) (i v : Z) : result (list Z) :=
  if (Z.to_nat i <? length Buffer)%nat then Ok (<[Z.to_nat i := v]> Buffer)
  else Undefined.

(** [count] iterations of the [for] loop, starting at index [i]. *)
Fixpoint ramp_loop (count : nat) (NumSamples : Z) (scale : f32) (i : Z)
    (Buffer : list Z) : result (list Z) :=
  match count with
  | O => Ok Buffer
  | S count' =>
      match shiftedValue NumSamples scale i with
      | Undefined => Undefined
      | Ok v =>
          match store Buffer i v with
          | Undefined => Undefined
          | Ok Buffer' => ramp_loop count' NumSamples scale (i + 1) Buffer'
          end
      end
  end.

(** [for (i = 0; i < NumSamples; i++)] runs its body for
    [i = 0 .. NumSamples - 1]. *)
Definition GenerateRampWave (Buffer : list Z) (NumSamples : Z) : result (list Z) :=
  ramp_loop (Z.to_nat NumSamples) NumSamples (scaleFactor NumSamples) 0 Buffer.

(** The 14-bit amplitude carried by a sample. *)
Definition amplitude (sample : Z) : Z := Z.shiftr sample 18.

(** ** The FIFO driver and the console

    [xllfifo.h], [xstatus.h] and [xparameters.h] are not part of the
    application. The driver is an interface over a device state [D]; a
    query returns the value the call leaves in the [int] variable
    [Status]. *)
Class FifoDriver (D : Type) : Type := {
  XLlFifo_Initialize : D -> Z -> D;
  XLlFifo_Reset : D -> D;
  XLlFifo_IntClear : D -> Z -> D;
  XLlFifo_Status : D -> Z * D;
  XLlFifo_iTxVacancy : D -> Z * D;
  XLlFifo_TxPutWord : D -> Z -> D;
  XLlFifo_TxSetLen : D -> Z -> D;
  (** the error bits of the interrupt status register *)
  XLLF_INT_ERROR_MASK : Z;
  (** the base address of the FIFO in the hardware design *)
  XPAR_XLLFIFO_0_BASEADDR : Z
}.

(** The return codes of [xstatus.h]. *)
Inductive xstatus : Type := XST_SUCCESS | XST_FAILURE.

(** What the program does to the outside, in the order it does it. *)
Inductive event : Type :=
| EvPrintf (fmt : string) (args : list Z)
| EvInitialize (base : Z)
| EvReset
| EvIntClear (mask : Z)
| EvUsleep (us : Z)
| EvStatus (value : Z)
| EvTxVacancy (value : Z)
| EvTxPutWord (word : Z)
| EvTxSetLen (len : Z).

Definition msg_banner : string :=
  "\r\n--- AXI Stream FIFO Triangular Wave Test ---\r\n".
Definition msg_generating : string := "Generating ramp wave pattern...\r\n".
Definition msg_no_space : string :=
  "Not enough space in TX FIFO. Need %d words, have %d words.\r\n".
Definition msg_tx_error : string :=
  "ERROR: FIFO transmission error occurred. Status: 0x%x\r\n".

Section Controller.
Context {D : Type} {drv : FifoDriver D}.

(** The global [TxBuffer], the device behind [FifoInstance], and the
    trace of the calls made so far. *)
Record state : Type := mkState {
  TxBuffer : list Z;
  fifo : D;
  trace : list event
}.

Definition emit (e : event) (st : state) : state :=
  mkState (TxBuffer st) (fifo st) (trace st ++ [e]).

Definition xil_printf (fmt : string) (args : list Z) (st : state) : state :=
  emit (EvPrintf fmt args) st.

Definition call_Initialize (base : Z) (st : state) : state :=
  emit (EvInitialize base)
    (mkState (TxBuffer st) (XLlFifo_Initialize (fifo st) base) (trace st)).

Definition call_Reset (st : state) : state :=
  emit EvReset (mkState (TxBuffer st) (XLlFifo_Reset (fifo st)) (trace st)).

Definition call_IntClear (mask : Z) (st : state) : state :=
  emit (EvIntClear mask)
    (mkState (TxBuffer st) (XLlFifo_IntClear (fifo st) mask) (trace st)).

Definition call_Status (st : state) : Z * state :=
  let (v, d) := XLlFifo_Status (fifo st) in
  (v, emit (EvStatus v) (mkState (TxBuffer st) d (trace st))).

Definition call_iTxVacancy (st : state) : Z * state :=
  let (v, d) := XLlFifo_iTxVacancy (fifo st) in
  (v, emit (EvTxVacancy v) (mkState (TxBuffer st) d (trace st))).

Definition call_TxPutWord (w : Z) (st : state) : state :=
  emit (EvTxPutWord w)
    (mkState (TxBuffer st) (XLlFifo_TxPutWord (fifo st) w) (trace st)).

Definition call_TxSetLen (len : Z) (st : state) : state :=
  emit (EvTxSetLen len)
    (mkState (TxBuffer st) (XLlFifo_TxSetLen (fifo st) len) (trace st)).

(** [for (i = 0; i < NUM_SAMPLES; i++) XLlFifo_TxPutWord(.., TxBuffer[i])]:
    [count] iterations from index [i]. *)
Fixpoint put_words (count : nat) (i : Z) (st : state) : result state :=
  match count with
  | O => Ok st
  | S count' =>
      match TxBuffer st !! Z.to_nat i with
      | None => Undefined
      | Some w => put_words count' (i + 1) (call_TxPutWord w st)
      end
  end.

(** The device after the words [ws] were pushed into it. *)
Definition device_after_words (d : D) (ws : list Z) : D :=
  foldl XLlFifo_TxPutWord d ws.

(** How one pass through the body of [while(1)] ends. *)
Inductive control : Type :=
| Continue (st : state)
| Return (code : xstatus) (st : state)
| Stuck.

(** The body of [while(1)]. *)
Definition loop_body (TxFrameLength : Z) (st : state) : control :=
  let (Status, st1) := call_iTxVacancy st in
  if Status <? NUM_SAMPLES then
    Return XST_FAILURE (xil_printf msg_no_space [NUM_SAMPLES; Status] st1)
  else
    match put_words (Z.to_nat NUM_SAMPLES) 0 st1 with
    | Undefined => Stuck
    | Ok st2 =>
        let st3 := call_TxSetLen TxFrameLength st2 in
        let (Status', st4) := call_Status st3 in
        if Z.land Status' XLLF_INT_ERROR_MASK =? 0 then Continue st4
        else
          Return XST_FAILURE
            (call_IntClear XLLF_INT_ERROR_MASK
               (xil_printf msg_tx_error [Status'] st4))
    end.

(** What is known of a run after a bounded number of passes. *)
Inductive outcome : Type :=
| Returned (code : xstatus) (st : state)
| Streaming (st : state)
| Crashed.

(** [while(1) { ... }] observed for [fuel] passes: the loop has no
    exit of its own, so when the passes are used up the program is
    still in it. *)
Fixpoint while_loop (fuel : nat) (TxFrameLength : Z) (st : state) : outcome :=
  match fuel with
  | O => Streaming st
  | S fuel' =>
      match loop_body TxFrameLength st with
      | Continue st' => while_loop fuel' TxFrameLength st'
      | Return code st' => Returned code st'
      | Stuck => Crashed
      end
  end.

(** [main], from the banner to the loop. *)
Definition main_init (d : D) : result state :=
  let st := mkState (replicate (Z.to_nat NUM_SAMPLES) 0) d [] in
  let st := xil_printf msg_banner [] st in
  let st := call_Initialize XPAR_XLLFIFO_0_BASEADDR st in
  let st := call_Reset st in
  let st := call_IntClear 4294967295 st in
  let st := emit (EvUsleep 1000) st in
  let (_, st) := call_Status st in
  let st := xil_printf msg_generating [] st in
  match GenerateRampWave (TxBuffer st) NUM_SAMPLES with
  | Undefined => Undefined
  | Ok buf => Ok (mkState buf (fifo st) (trace st))
  end.

Definition main (fuel : nat) (d : D) : outcome :=
  match main_init d with
  | Undefined => Crashed
  | Ok st =>
      let TxFrameLength := u32 (NUM_SAMPLES * 4) in
      while_loop fuel TxFrameLength st
  end.

End Controller.

Arguments state D : clear implicits.
Arguments control D : clear implicits.
Arguments outcome D : clear implicits.

(** ** A scripted FIFO

    A device that answers the vacancy and status queries from two
    scripts (and with [mock_vacancy] and [0] once a script is used up)
    and keeps the words and the frame lengths it was given. *)
Record mock : Type := mkMock {
  vacancy_script : list Z;
  status_script : list Z;
  words_in : list Z;
  frames_in : list Z
}.

Definition mock_vacancy : Z := 512.

Definition mock_query (script : list Z) (default : Z) : Z * list Z :=
  match script with
  | [] => (default, [])
  | v :: rest => (v, rest)
  end.

#[export] Instance mock_driver : FifoDriver mock := {
  XLlFifo_Initialize d _ := d;
  XLlFifo_Reset d := mkMock (vacancy_script d) (status_script d) [] [];
  XLlFifo_IntClear d _ := d;
  XLlFifo_Status d :=
    let (v, rest) := mock_query (status_script d) 0 in
    (v, mkMock (vacancy_script d) rest (words_in d) (frames_in d));
  XLlFifo_iTxVacancy d :=
    let (v, rest) := mock_query (vacancy_script d) mock_vacancy in
    (v, mkMock rest (status_script d) (words_in d) (frames_in d));
  XLlFifo_TxPutWord d w :=
    mkMock (vacancy_script d) (status_script d) (words_in d ++ [w]) (frames_in d);
  XLlFifo_TxSetLen d len :=
    mkMock (vacancy_script d) (status_script d) (words_in d) (frames_in d ++ [len]);
  XLLF_INT_ERROR_MASK := 4060086272;
  XPAR_XLLFIFO_0_BASEADDR := 2147483648
}.

(** ** Reading the outcome of a run

    Both fatal paths return [XST_FAILURE]; what tells them apart is the
    diagnostic printed last. *)
Inductive failure : Type :=
| InsufficientCapacity (needed available : Z)
| TransmissionFault (statusBits : Z).

Definition diagnosis (tr : list event) : option failure :=
  match rev tr with
  | EvPrintf fmt [needed; available] :: _ =>
      if String.eqb fmt msg_no_space
      then Some (InsufficientCapacity needed available) else None
  | EvIntClear _ :: EvPrintf fmt [statusBits] :: _ =>
      if String.eqb fmt msg_tx_error
      then Some (TransmissionFault statusBits) else None
  | _ => None
  end.

(** The words handed to [XLlFifo_TxPutWord], in call order. *)
Definition pushed_words (tr : list event) : list Z :=
  flat_map (fun e => match e with EvTxPutWord w => [w] | _ => [] end) tr.

(** The lengths handed to [XLlFifo_TxSetLen], in call order. *)
Definition frame_lengths (tr : list event) : list Z :=
  flat_map (fun e => match e with EvTxSetLen len => [len] | _ => [] end) tr.

(** The state a pass or a run leaves behind, when it leaves one. *)
Definition control_state {D : Type} (c : control D) : option (state D) :=
  match c with
  | Continue st | Return _ st => Some st
  | Stuck => None
  end.

Definition outcome_state {D : Type} (o : outcome D) : option (state D) :=
  match o with
  | Returned _ st | Streaming st => Some st
  | Crashed => None
  end.

(** The events of one pass that gets past the vacancy check, up to the
    status query. *)
Definition frame_events (vacancy : Z) (buf : list Z) (len status : Z) : list event :=
  [EvTxVacancy vacancy] ++ map EvTxPutWord buf ++ [EvTxSetLen len; EvStatus status].

(** The events of the error path after the status query. *)
Definition fault_events (mask status : Z) : list event :=
  [EvPrintf msg_tx_error [status]; EvIntClear mask].

(** A program state over the scripted FIFO: a full buffer of sevens,
    nothing traced yet. *)
Definition demo_buffer : list Z := replicate (Z.to_nat NUM_SAMPLES) 7.

Definition demo_state (vacancies statuses : list Z) : state mock :=
  mkState demo_buffer (mkMock vacancies statuses [] []) [].

(** The state a run has returned with (the start state when it has not). *)
Definition returned_state {D : Type} (o : outcome D) (start : state D) : state D :=
  match o with
  | Returned _ st => st
  | _ => start
  end.

(** ** Floats read as rationals

    The value of a finite float, rounding to nearest even written as a
    function on integers, and the result of rounding a positive number
    in the normal range of binary32; they are what the lemmas on
    [SpecFloat]'s operations below are stated with. *)
Definition pow2 (e : Z) : Q := (2 ^ e)%Q.

Definition F2Q (x : f32) : Q :=
  match x with
  | S754_finite s m e =>
      ((if s then inject_Z (Zneg m) else inject_Z (Zpos m)) * pow2 e)%Q
  | _ => 0%Q
  end.

(** [a / b] rounded to the nearest integer, ties to even. *)
Definition rne_div (a b : Z) : Z :=
  let q := a / b in
  match (2 * (a mod b)) ?= b with
  | Lt => q
  | Eq => if Z.even q then q else q + 1
  | Gt => q + 1
  end.

(** A rounded mantissa [R] in [2^23 .. 2^24] at exponent [E], put in
    canonical form. *)
Definition round_finish (R E : Z) : f32 :=
  if R <? 2 ^ 24 then S754_finite false (Z.to_pos R) E
  else S754_finite false (Z.to_pos (2 ^ 23)) (E + 1).

(** [m * 2^e] rounded to binary32, for [m] of at least 24 digits. *)
Definition rnd_normal (m e : Z) : f32 :=
  round_finish (rne_div m (2 ^ (Zdigits2 m - 24))) (Zdigits2 m + e - 24).

(** A positive normal binary32 number with its exponent in [lo .. hi]. *)
Definition normal_pos (lo hi : Z) (x : f32) : Prop :=
  exists m e, x = S754_finite false m e /\
              2 ^ 23 <= Zpos m < 2 ^ 24 /\ lo <= e <= hi.

(** The second half of [binary_round_aux]: a rounded mantissa is
    realigned (a carry out of the top bit shifts it once more) and
    checked for overflow. *)
Definition round_tail (sx : bool) (R E : Z) : f32 :=
  let '(mrs'', e'') := shr_fexp prec32 emax32 R E loc_Exact in
  match shr_m mrs'' with
  | Z0 => S754_zero sx
  | Zpos m =>
      if e'' <=? emax32 - prec32 then S754_finite sx m e'' else S754_infinity sx
  | Zneg _ => S754_nan
  end.

(** The rational [m * 2^e]. *)
Definition val (m e : Z) : Q := (inject_Z m * pow2 e)%Q.

(** [x] is what the exact positive value [v] rounds to in binary32,
    [v] being in the range of the normal numbers. *)
Definition rounds_to (v : Q) (x : f32) : Prop :=
  exists m e,
    0 < m /\ 24 <= Zdigits2 m /\ -149 <= Zdigits2 m + e - 24 <= 103 /\
    (val m e == v)%Q /\ x = rnd_normal m e.

(** The float the cast in [rampValue] is applied to:
    [(i * scaleFactor) + 0.5f]. *)
Definition ramp_sum (scale : f32) (i : Z) : f32 :=
  f32_add (f32_mul (f32_of_u32 i) scale) f32_half.

(** The word the loop stores at index [i] (0 where the run has no
    meaning), and the pattern for a run of [NumSamples] words. *)
Definition ramp_word (NumSamples : Z) (scale : f32) (i : Z) : Z :=
  match shiftedValue NumSamples scale i with
  | Ok v => v
  | Undefined => 0
  end.

Definition ramp_pattern (NumSamples : Z) : list Z :=
  ramp_word NumSamples (scaleFactor NumSamples) <$> seqZ 0 NumSamples.

(** ** The generator as the specification words it

    Modelled from the spec: section 4.1 gives the amplitude at a
    non-final index as [round(i * scale)] clamped to [0 .. MAX_COUNT],
    with [scale = MAX_COUNT / (N - 2)] (floating-point) and
    [round(x) = floor(x + 0.5)]; the sample is the amplitude shifted
    left by 18. [spec_amplitude_f32] does the arithmetic in binary32,
    as the section says; [spec_amplitude_exact] does it in the
    rationals, as the formula reads on paper. *)
Definition spec_clamp (a : Z) : Z := Z.max 0 (Z.min MAX_COUNT a).

Definition spec_amplitude_f32 (N i : Z) : Z :=
  let scale := f32_div (f32_of_u32 MAX_COUNT) (f32_of_u32 (N - 2)) in
  spec_clamp (Qfloor (F2Q (f32_add (f32_mul (f32_of_u32 i) scale) f32_half))).

Definition spec_amplitude_exact (N i : Z) : Z :=
  let scale := (inject_Z MAX_COUNT / inject_Z (N - 2))%Q in
  spec_clamp (Qfloor (inject_Z i * scale + (1 # 2))%Q).

Definition spec_sample (amp : Z) : Z := Z.shiftl amp 18.

(** ** More ways to read a trace *)

(** The masks handed to [XLlFifo_IntClear], in call order. *)
Definition cleared_masks (tr : list event) : list Z :=
  flat_map (fun e => match e with EvIntClear mask => [mask] | _ => [] end) tr.

(** What [main] does before its loop, [status] being what the status
    query after the reset answered. *)
Definition startup_events (base status : Z) : list event :=
  [EvPrintf msg_banner []; EvInitialize base; EvReset; EvIntClear 4294967295;
   EvUsleep 1000; EvStatus status; EvPrintf msg_generating []].

(** The events of a series of accepted passes, each given by the
    vacancy and the status the device answered. *)
Definition frames_events (buf : list Z) (len : Z) (answers : list (Z * Z)) : list event :=
  flat_map (fun vs => frame_events (fst vs) buf len (snd vs)) answers.

(** The events of the pass that finds too little room. *)
Definition short_events (vacancy : Z) : list event :=
  [EvTxVacancy vacancy; EvPrintf msg_no_space [NUM_SAMPLES; vacancy]].

(** A sample as the DAC expects it: a [u32] whose low 18 bits are zero,
    that is a 14-bit code in bits 31:18. *)
Definition dac_word (w : Z) : Prop :=
  0 <= w < 2 ^ 32 /\ Z.land w 262143 = 0.

(** A set of device states the driver never leaves, in which there is
    always room for a frame and no error bit is ever reported. *)
Definition always_ready {D : Type} {drv : FifoDriver D} (I : D -> Prop) : Prop :=
  forall d, I d ->
    (forall base, I (XLlFifo_Initialize d base)) /\
    I (XLlFifo_Reset d) /\
    (forall mask, I (XLlFifo_IntClear d mask)) /\
    I (snd (XLlFifo_Status d)) /\
    I (snd (XLlFifo_iTxVacancy d)) /\
    (forall w, I (XLlFifo_TxPutWord d w)) /\
    (forall len, I (XLlFifo_TxSetLen d len)) /\
    NUM_SAMPLES <= fst (XLlFifo_iTxVacancy d) /\
    Z.land (fst (XLlFifo_Status d)) XLLF_INT_ERROR_MASK = 0.

(** The scripted FIFO once both scripts are used up. *)
Definition mock_idle (d : mock) : Prop :=
  vacancy_script d = [] /\ status_script d = [].

(** The relative error of one rounding in binary32, bounded by a unit
    in the last place: [2^-23]. *)
Definition eps32 : Q := 1 # 8388608.

(** * The streaming loop *)

Section ControllerFacts.
Context {D : Type} {drv : FifoDriver D}.

Implicit Types (st : state D) (len v s : Z).

Lemma put_words_ok count : forall i st,
  0 <= i ->
  (Z.to_nat i + count <= length (TxBuffer st))%nat ->
  let ws := take count (drop (Z.to_nat i) (TxBuffer st)) in
  put_words count i st =
    Ok (mkState (TxBuffer st) (device_after_words (fifo st) ws)
          (trace st ++ map EvTxPutWord ws)).
Proof.
  induction count as [|count IH]; intros i st Hi Hlen; cbn [put_words].
  - rewrite take_0. cbn. rewrite app_nil_r. destruct st; reflexivity.
  - destruct (TxBuffer st !! Z.to_nat i) as [w|] eqn:Hw.
    2:{ apply lookup_ge_None in Hw. lia. }
    assert (Hi1 : Z.to_nat (i + 1) = S (Z.to_nat i)).
    { rewrite Z2Nat.inj_add by lia. change (Z.to_nat 1) with 1%nat. lia. }
    rewrite IH; cbn [call_TxPutWord emit TxBuffer fifo trace]; [|lia|lia].
    rewrite (drop_S _ _ _ Hw). cbn [take map device_after_words foldl].
    rewrite Hi1, <- app_assoc. reflexivity.
Qed.

(** All [NUM_SAMPLES] words of a full buffer, from index 0. *)
Lemma put_words_all st :
  length (TxBuffer st) = Z.to_nat NUM_SAMPLES ->
  put_words (Z.to_nat NUM_SAMPLES) 0 st =
    Ok (mkState (TxBuffer st) (device_after_words (fifo st) (TxBuffer st))
          (trace st ++ map EvTxPutWord (TxBuffer st))).
Proof.
  intros Hlen. rewrite put_words_ok by (cbn; lia).
  cbn [Z.to_nat drop]. rewrite <- Hlen, firstn_all. reflexivity.
Qed.

(** The pass that finds too little room. *)
Lemma loop_body_short st len v d1 :
  XLlFifo_iTxVacancy (fifo st) = (v, d1) ->
  v < NUM_SAMPLES ->
  loop_body len st =
    Return XST_FAILURE
      (mkState (TxBuffer st) d1
         (trace st ++ [EvTxVacancy v; EvPrintf msg_no_space [NUM_SAMPLES; v]])).
Proof.
  intros Hv Hlt. unfold loop_body, call_iTxVacancy. rewrite Hv.
  destruct (Z.ltb_spec v NUM_SAMPLES); [|lia].
  unfold xil_printf, emit. cbn. rewrite <- app_assoc. reflexivity.
Qed.

(** The pass that finds enough room: the frame goes out and the status
    decides how the pass ends. *)
Lemma loop_body_frame st len v d1 s d4 :
  XLlFifo_iTxVacancy (fifo st) = (v, d1) ->
  NUM_SAMPLES <= v ->
  length (TxBuffer st) = Z.to_nat NUM_SAMPLES ->
  XLlFifo_Status (XLlFifo_TxSetLen (device_after_words d1 (TxBuffer st)) len)
    = (s, d4) ->
  loop_body len st =
    if Z.land s XLLF_INT_ERROR_MASK =? 0
    then Continue
           (mkState (TxBuffer st) d4
              (trace st ++ frame_events v (TxBuffer st) len s))
    else Return XST_FAILURE
           (mkState (TxBuffer st) (XLlFifo_IntClear d4 XLLF_INT_ERROR_MASK)
              (trace st ++ frame_events v (TxBuffer st) len s
                 ++ fault_events XLLF_INT_ERROR_MASK s)).
Proof.
  intros Hv Hge Hlen Hs. unfold loop_body, call_iTxVacancy. rewrite Hv.
  destruct (Z.ltb_spec v NUM_SAMPLES); [lia|].
  rewrite put_words_all by exact Hlen.
  unfold call_TxSetLen, call_Status, emit. cbn [TxBuffer fifo trace].
  rewrite Hs. unfold frame_events, fault_events.
  destruct (Z.land s XLLF_INT_ERROR_MASK =? 0);
    unfold call_IntClear, xil_printf, emit; cbn [TxBuffer fifo trace];
    repeat rewrite <- app_assoc; reflexivity.
Qed.

(** Every pass over a full buffer ends in one of three ways. *)
Lemma loop_body_cases st len :
  length (TxBuffer st) = Z.to_nat NUM_SAMPLES ->
  (exists v d1,
      XLlFifo_iTxVacancy (fifo st) = (v, d1) /\ v < NUM_SAMPLES /\
      loop_body len st =
        Return XST_FAILURE
          (mkState (TxBuffer st) d1
             (trace st ++ [EvTxVacancy v; EvPrintf msg_no_space [NUM_SAMPLES; v]])))
  \/ (exists v d1 s d4,
      XLlFifo_iTxVacancy (fifo st) = (v, d1) /\ NUM_SAMPLES <= v /\
      XLlFifo_Status
        (XLlFifo_TxSetLen (device_after_words d1 (TxBuffer st)) len) = (s, d4) /\
      (Z.land s XLLF_INT_ERROR_MASK = 0 /\
       loop_body len st =
         Continue (mkState (TxBuffer st) d4
                     (trace st ++ frame_events v (TxBuffer st) len s))
       \/
       Z.land s XLLF_INT_ERROR_MASK <> 0 /\
       loop_body len st =
         Return XST_FAILURE
           (mkState (TxBuffer st) (XLlFifo_IntClear d4 XLLF_INT_ERROR_MASK)
              (trace st ++ frame_events v (TxBuffer st) len s
                 ++ fault_events XLLF_INT_ERROR_MASK s)))).
Proof.
  intros Hlen.
  destruct (XLlFifo_iTxVacancy (fifo st)) as [v d1] eqn:Hv.
  destruct (Z.lt_ge_cases v NUM_SAMPLES) as [Hlt|Hge].
  - left. exists v, d1. split; [reflexivity|]. split; [exact Hlt|].
    apply loop_body_short; assumption.
  - destruct (XLlFifo_Status
                (XLlFifo_TxSetLen (device_after_words d1 (TxBuffer st)) len))
      as [s d4] eqn:Hs.
    right. exists v, d1, s, d4.
    split; [reflexivity|]. split; [exact Hge|]. split; [exact Hs|].
    rewrite (loop_body_frame st len v d1 s d4 Hv Hge Hlen Hs).
    destruct (Z.eqb_spec (Z.land s XLLF_INT_ERROR_MASK) 0) as [Hz|Hnz]; auto.
Qed.

Lemma diagnosis_short tr v :
  diagnosis (tr ++ [EvTxVacancy v; EvPrintf msg_no_space [NUM_SAMPLES; v]])
    = Some (InsufficientCapacity NUM_SAMPLES v).
Proof.
  unfold diagnosis. rewrite rev_app_distr. reflexivity.
Qed.

Lemma diagnosis_fault tr mask s :
  diagnosis (tr ++ fault_events mask s) = Some (TransmissionFault s).
Proof.
  unfold diagnosis, fault_events. rewrite rev_app_distr. reflexivity.
Qed.

Lemma diagnosis_frame_fault tr v buf len mask s :
  diagnosis (tr ++ frame_events v buf len s ++ fault_events mask s)
    = Some (TransmissionFault s).
Proof. rewrite app_assoc. apply diagnosis_fault. Qed.

Lemma pushed_words_app tr1 tr2 :
  pushed_words (tr1 ++ tr2) = pushed_words tr1 ++ pushed_words tr2.
Proof. unfold pushed_words. apply flat_map_app. Qed.

Lemma pushed_words_put ws : pushed_words (map EvTxPutWord ws) = ws.
Proof.
  induction ws as [|w ws IH]; [reflexivity|].
  cbn. f_equal. exact IH.
Qed.

Lemma pushed_words_frame v buf len s :
  pushed_words (frame_events v buf len s) = buf.
Proof.
  unfold frame_events. rewrite !pushed_words_app, pushed_words_put.
  cbn. apply app_nil_r.
Qed.

End ControllerFacts.

Section LoopFacts.
Context {D : Type} {drv : FifoDriver D}.

Implicit Types (st : state D) (len v s : Z).

(** A run that has returned does not change with more fuel. *)
Lemma while_loop_stable fuel : forall len st code st',
  while_loop fuel len st = Returned code st' ->
  forall fuel', (fuel <= fuel')%nat ->
  while_loop fuel' len st = Returned code st'.
Proof.
  induction fuel as [|fuel IH]; intros len st code st' Hrun fuel' Hle.
  - discriminate Hrun.
  - destruct fuel' as [|fuel']; [lia|].
    cbn [while_loop] in *.
    destruct (loop_body len st) as [st1|c st1|]; try assumption.
    apply (IH _ _ _ _ Hrun). lia.
Qed.

(** What [fuel] passes over a full buffer leave behind: the buffer
    as it was, and a trace in which every pass that got past the
    vacancy check pushed the whole buffer. *)
Lemma while_loop_inv fuel : forall len st,
  length (TxBuffer st) = Z.to_nat NUM_SAMPLES ->
  exists st' evs k,
    trace st' = trace st ++ evs /\
    TxBuffer st' = TxBuffer st /\
    pushed_words evs = concat (replicate k (TxBuffer st)) /\
    (k <= fuel)%nat /\
    (while_loop fuel len st = Streaming st' \/
     while_loop fuel len st = Returned XST_FAILURE st' /\
     exists f, diagnosis (trace st') = Some f).
Proof.
  induction fuel as [|fuel IH]; intros len st Hlen.
  - exists st, [], 0%nat. rewrite app_nil_r. cbn. auto 6.
  - cbn [while_loop].
    destruct (loop_body_cases st len Hlen)
      as [(v & d1 & _ & _ & ->)
         | (v & d1 & s & d4 & _ & _ & _ & [[_ ->] | [_ ->]])].
    + eexists (mkState _ _ _),
        [EvTxVacancy v; EvPrintf msg_no_space [NUM_SAMPLES; v]], 0%nat.
      cbn [trace TxBuffer].
      split; [reflexivity|]. split; [reflexivity|].
      split; [reflexivity|]. split; [lia|]. right. split; [reflexivity|].
      eexists. apply diagnosis_short.
    + match goal with |- context [while_loop fuel len ?st1] =>
        destruct (IH len st1 Hlen) as (st' & evs & k & Htr & Hbuf & Hpw & Hk & Hrun)
      end.
      cbn [trace TxBuffer] in Htr, Hbuf, Hpw.
      exists st', (frame_events v (TxBuffer st) len s ++ evs), (S k).
      split; [rewrite Htr, <- app_assoc; reflexivity|].
      split; [exact Hbuf|].
      split.
      { rewrite pushed_words_app, pushed_words_frame, Hpw. reflexivity. }
      split; [lia|]. exact Hrun.
    + eexists (mkState _ _ _),
        (frame_events v (TxBuffer st) len s
           ++ fault_events XLLF_INT_ERROR_MASK s), 1%nat.
      cbn [trace TxBuffer].
      split; [reflexivity|]. split; [reflexivity|].
      split.
      { rewrite pushed_words_app, pushed_words_frame. cbn.
        rewrite app_nil_r. reflexivity. }
      split; [lia|]. right. split; [reflexivity|].
      eexists. apply diagnosis_frame_fault.
Qed.

End LoopFacts.

(** ** The claims about the streaming loop *)

Section ControllerClaims.
Context {D : Type} {drv : FifoDriver D}.

Implicit Types (st : state D) (len v s : Z).

(** C1. A pass whose vacancy query answers less than [NUM_SAMPLES]
    ends the run with [XST_FAILURE] and the insufficient-capacity
    diagnostic (needed [NUM_SAMPLES], available the answer), the
    device having seen the vacancy query and nothing else: no word is
    pushed. A pass whose vacancy query answers [NUM_SAMPLES] or more
    (exactly [NUM_SAMPLES] included) is accepted and pushes the frame. *)
Theorem insufficient_capacity_is_fatal st len v d1 fuel :
  XLlFifo_iTxVacancy (fifo st) = (v, d1) ->
  (v < NUM_SAMPLES ->
     let evs := [EvTxVacancy v; EvPrintf msg_no_space [NUM_SAMPLES; v]] in
     let st' := mkState (TxBuffer st) d1 (trace st ++ evs) in
     while_loop (S fuel) len st = Returned XST_FAILURE st' /\
     diagnosis (trace st') = Some (InsufficientCapacity NUM_SAMPLES v) /\
     pushed_words evs = [])
  /\
  (NUM_SAMPLES <= v ->
     length (TxBuffer st) = Z.to_nat NUM_SAMPLES ->
     exists st' s rest,
       control_state (loop_body len st) = Some st' /\
       trace st' = trace st ++ frame_events v (TxBuffer st) len s ++ rest /\
       pushed_words (frame_events v (TxBuffer st) len s ++ rest) = TxBuffer st /\
       forall a, diagnosis (trace st') <> Some (InsufficientCapacity NUM_SAMPLES a)).
Proof.
  intros Hv. split.
  - intros Hlt evs st'. cbn [while_loop].
    rewrite (loop_body_short st len v d1 Hv Hlt).
    split; [reflexivity|]. split; [apply diagnosis_short | reflexivity].
  - intros Hge Hlen.
    destruct (XLlFifo_Status
                (XLlFifo_TxSetLen (device_after_words d1 (TxBuffer st)) len))
      as [s d4] eqn:Hs.
    rewrite (loop_body_frame st len v d1 s d4 Hv Hge Hlen Hs).
    destruct (Z.land s XLLF_INT_ERROR_MASK =? 0).
    + eexists (mkState _ _ _), s, []. cbn [control_state trace].
      rewrite !app_nil_r. split; [reflexivity|]. split; [reflexivity|].
      split; [apply pushed_words_frame|].
      intros a. unfold diagnosis, frame_events.
      rewrite !rev_app_distr. cbn. discriminate.
    + eexists (mkState _ _ _), s, (fault_events XLLF_INT_ERROR_MASK s).
      cbn [control_state trace].
      split; [reflexivity|]. split; [reflexivity|].
      split.
      { rewrite pushed_words_app, pushed_words_frame. cbn. apply app_nil_r. }
      intros a. rewrite app_assoc, diagnosis_fault. discriminate.
Qed.

(** C2. A pass whose status query, made after the frame was committed,
    answers with a bit of [XLLF_INT_ERROR_MASK] set prints the status,
    calls [XLlFifo_IntClear] with exactly [XLLF_INT_ERROR_MASK] and
    returns [XST_FAILURE]: however much fuel is left, no further pass
    is made. *)
Theorem transmission_fault_is_fatal st len v d1 s d4 fuel :
  length (TxBuffer st) = Z.to_nat NUM_SAMPLES ->
  XLlFifo_iTxVacancy (fifo st) = (v, d1) ->
  NUM_SAMPLES <= v ->
  XLlFifo_Status (XLlFifo_TxSetLen (device_after_words d1 (TxBuffer st)) len)
    = (s, d4) ->
  Z.land s XLLF_INT_ERROR_MASK <> 0 ->
  let st' :=
    mkState (TxBuffer st) (XLlFifo_IntClear d4 XLLF_INT_ERROR_MASK)
      (trace st ++ frame_events v (TxBuffer st) len s
         ++ [EvPrintf msg_tx_error [s]; EvIntClear XLLF_INT_ERROR_MASK]) in
  while_loop (S fuel) len st = Returned XST_FAILURE st' /\
  diagnosis (trace st') = Some (TransmissionFault s).
Proof.
  intros Hlen Hv Hge Hs Hnz st'. cbn [while_loop].
  rewrite (loop_body_frame st len v d1 s d4 Hv Hge Hlen Hs).
  destruct (Z.eqb_spec (Z.land s XLLF_INT_ERROR_MASK) 0) as [Hz|_]; [contradiction|].
  split; [reflexivity|].
  subst st'. cbn [trace]. rewrite app_assoc. apply diagnosis_fault.
Qed.

(** C4. A pass that gets past the vacancy check calls
    [XLlFifo_TxPutWord] once per word with [TxBuffer[0]], ...,
    [TxBuffer[NUM_SAMPLES - 1]] in this order ([NUM_SAMPLES] calls),
    then [XLlFifo_TxSetLen] once, with [NUM_SAMPLES * 4], and only then
    queries the status. *)
Theorem frame_is_pushed_in_order st v d1 :
  length (TxBuffer st) = Z.to_nat NUM_SAMPLES ->
  XLlFifo_iTxVacancy (fifo st) = (v, d1) ->
  NUM_SAMPLES <= v ->
  exists st' s rest,
    control_state (loop_body (u32 (NUM_SAMPLES * 4)) st) = Some st' /\
    trace st' =
      trace st ++ [EvTxVacancy v] ++ map EvTxPutWord (TxBuffer st)
        ++ [EvTxSetLen (NUM_SAMPLES * 4); EvStatus s] ++ rest /\
    length (map EvTxPutWord (TxBuffer st)) = Z.to_nat NUM_SAMPLES /\
    pushed_words rest = [] /\
    frame_lengths rest = [].
Proof.
  intros Hlen Hv Hge.
  destruct (XLlFifo_Status
              (XLlFifo_TxSetLen (device_after_words d1 (TxBuffer st))
                 (u32 (NUM_SAMPLES * 4))))
    as [s d4] eqn:Hs.
  rewrite (loop_body_frame st _ v d1 s d4 Hv Hge Hlen Hs).
  change (u32 (NUM_SAMPLES * 4)) with (NUM_SAMPLES * 4).
  unfold frame_events.
  destruct (Z.land s XLLF_INT_ERROR_MASK =? 0).
  - eexists (mkState _ _ _), s, []. cbn [control_state trace].
    rewrite length_map, !app_nil_r. repeat rewrite <- app_assoc. auto.
  - eexists (mkState _ _ _), s, (fault_events XLLF_INT_ERROR_MASK s).
    cbn [control_state trace].
    rewrite length_map. repeat rewrite <- app_assoc. auto.
Qed.

End ControllerClaims.

Section RunClaims.
Context {D : Type} {drv : FifoDriver D}.

Implicit Types (st : state D) (len v s : Z).

(** The pattern written for [main] is the one a [NUM_SAMPLES]-element
    array of zeros is turned into. *)
Lemma GenerateRampWave_main :
  exists buf,
    GenerateRampWave (replicate (Z.to_nat NUM_SAMPLES) 0) NUM_SAMPLES = Ok buf /\
    length buf = Z.to_nat NUM_SAMPLES.
Proof. vm_compute. eexists. split; reflexivity. Qed.

(** [main] reaches its loop with the generated pattern in [TxBuffer]
    and no word pushed yet. *)
Lemma main_init_ok (d : D) :
  exists st0,
    main_init d = Ok st0 /\
    GenerateRampWave (replicate (Z.to_nat NUM_SAMPLES) 0) NUM_SAMPLES
      = Ok (TxBuffer st0) /\
    length (TxBuffer st0) = Z.to_nat NUM_SAMPLES /\
    pushed_words (trace st0) = [].
Proof.
  destruct GenerateRampWave_main as (buf & Hgen & Hlen).
  unfold main_init, call_Status, call_IntClear, call_Reset, call_Initialize,
    xil_printf, emit.
  cbn [TxBuffer fifo trace].
  destruct (XLlFifo_Status _) as [s0 d0].
  cbn [TxBuffer fifo trace]. rewrite Hgen.
  eexists (mkState _ _ _). cbn [TxBuffer trace].
  split; [reflexivity|]. split; [reflexivity|]. split; [exact Hlen|].
  reflexivity.
Qed.

(** C5. [main] has no successful completion: whatever the device
    answers and however long the run is observed, the program is
    either still in its loop or has returned [XST_FAILURE] through one
    of the two fatal paths, and a run that has returned stays so. *)
Theorem no_successful_completion (fuel : nat) (d : D) :
  (exists st, main fuel d = Streaming st)
  \/ (exists st f,
        main fuel d = Returned XST_FAILURE st /\
        diagnosis (trace st) = Some f /\
        ((exists v, f = InsufficientCapacity NUM_SAMPLES v) \/
         (exists s, f = TransmissionFault s)) /\
        forall fuel', (fuel <= fuel')%nat -> main fuel' d = main fuel d).
Proof.
  unfold main.
  destruct (main_init_ok d) as (st0 & -> & _ & Hlen & _).
  cbn zeta.
  assert (Hpaths : forall n st st',
    length (TxBuffer st) = Z.to_nat NUM_SAMPLES ->
    while_loop n (u32 (NUM_SAMPLES * 4)) st = Returned XST_FAILURE st' ->
    (exists v, diagnosis (trace st') = Some (InsufficientCapacity NUM_SAMPLES v))
    \/ (exists s, diagnosis (trace st') = Some (TransmissionFault s))).
  { induction n as [|n IH]; intros st st' Hl Hrun; [discriminate|].
    cbn [while_loop] in Hrun.
    destruct (loop_body_cases st (u32 (NUM_SAMPLES * 4)) Hl)
      as [(v & d1 & _ & _ & Hb)
         | (v & d1 & s & d4 & _ & _ & _ & [[_ Hb] | [_ Hb]])];
      rewrite Hb in Hrun.
    - injection Hrun as <-. left. exists v. apply diagnosis_short.
    - eapply IH; [|exact Hrun]. exact Hl.
    - injection Hrun as <-. right. exists s.
      exact (diagnosis_frame_fault _ _ _ _ _ _). }
  destruct (while_loop_inv fuel (u32 (NUM_SAMPLES * 4)) st0 Hlen)
    as (st' & evs & k & _ & _ & _ & _ & [Hrun | [Hrun [f Hf]]]).
  - left. exists st'. exact Hrun.
  - right. exists st', f. split; [exact Hrun|]. split; [exact Hf|]. split.
    + destruct (Hpaths fuel st0 st' Hlen Hrun) as [[v Hv] | [s Hs]].
      * left. exists v. congruence.
      * right. exists s. congruence.
    + intros fuel' Hle. rewrite Hrun.
      apply (while_loop_stable fuel _ _ _ _ Hrun). exact Hle.
Qed.


(** C10. A run that returns with the transmission-fault diagnostic
    made, in its last pass, the vacancy query, the [NUM_SAMPLES] pushes
    and the length commit before the status query that showed the
    fault; after that query the only call to the device is the
    [XLlFifo_IntClear], so the device is left as the committed frame
    and the fault clear made it. *)
Theorem fault_follows_committed_frame (fuel : nat) len st st' code s :
  length (TxBuffer st) = Z.to_nat NUM_SAMPLES ->
  while_loop fuel len st = Returned code st' ->
  diagnosis (trace st') = Some (TransmissionFault s) ->
  exists pre v d0 d1 d4,
    NUM_SAMPLES <= v /\
    trace st' =
      pre ++ frame_events v (TxBuffer st) len s
        ++ [EvPrintf msg_tx_error [s]; EvIntClear XLLF_INT_ERROR_MASK] /\
    XLlFifo_iTxVacancy d0 = (v, d1) /\
    XLlFifo_Status
      (XLlFifo_TxSetLen (device_after_words d1 (TxBuffer st)) len) = (s, d4) /\
    fifo st' = XLlFifo_IntClear d4 XLLF_INT_ERROR_MASK.
Proof.
  revert st. induction fuel as [|fuel IH]; intros st Hlen Hrun Hdiag;
    [discriminate|].
  cbn [while_loop] in Hrun.
  destruct (loop_body_cases st len Hlen)
    as [(v & d1 & _ & _ & Hb)
       | (v & d1 & s1 & d4 & Hv & Hge & Hs & [[_ Hb] | [_ Hb]])];
    rewrite Hb in Hrun.
  - injection Hrun as _ <-.
    change (diagnosis (trace st ++ [EvTxVacancy v;
                                    EvPrintf msg_no_space [NUM_SAMPLES; v]])
            = Some (TransmissionFault s)) in Hdiag.
    rewrite diagnosis_short in Hdiag. discriminate.
  - destruct (IH (mkState (TxBuffer st) d4 _) Hlen Hrun Hdiag)
      as (pre & v' & d0' & d1' & d4' & Hge' & Htr & Hv' & Hs' & Hclr).
    cbn [TxBuffer] in Htr, Hs'.
    exists pre, v', d0', d1', d4'. auto.
  - injection Hrun as _ <-.
    change (diagnosis (trace st ++ frame_events v (TxBuffer st) len s1
                         ++ fault_events XLLF_INT_ERROR_MASK s1)
            = Some (TransmissionFault s)) in Hdiag.
    rewrite diagnosis_frame_fault in Hdiag.
    injection Hdiag as <-.
    exists (trace st), v, (fifo st), d1, d4.
    split; [exact Hge|]. split; [unfold fault_events; reflexivity|]. auto.
Qed.

End RunClaims.

(** ** The claims at work on the scripted FIFO *)

Lemma insufficient_capacity_is_fatal_witness :
  (while_loop 3 1024 (demo_state [100] [])
     = Returned XST_FAILURE
         (mkState demo_buffer (mkMock [] [] [] [])
            [EvTxVacancy 100; EvPrintf msg_no_space [NUM_SAMPLES; 100]]))
  /\ (exists st' s rest,
        control_state (loop_body 1024 (demo_state [256] [])) = Some st' /\
        trace st' = frame_events 256 demo_buffer 1024 s ++ rest /\
        pushed_words (trace st') = demo_buffer).
Proof.
  pose proof (insufficient_capacity_is_fatal (drv := mock_driver)
                (demo_state [100] []) 1024 100 (mkMock [] [] [] []) 2 eq_refl)
    as [Hshort _].
  pose proof (insufficient_capacity_is_fatal (drv := mock_driver)
                (demo_state [256] []) 1024 256 (mkMock [] [] [] []) 0 eq_refl)
    as [_ Hfull].
  split.
  - destruct (Hshort eq_refl) as [Hrun _]. exact Hrun.
  - destruct (Hfull ltac:(vm_compute; discriminate) eq_refl)
      as (st' & s & rest & Hst & Htr & Hpw & _).
    exists st', s, rest. split; [exact Hst|]. split; [exact Htr|].
    rewrite Htr. exact Hpw.
Defined.

Lemma transmission_fault_is_fatal_witness :
  exists st',
    while_loop 5 1024 (demo_state [300] [268435456]) = Returned XST_FAILURE st' /\
    diagnosis (trace st') = Some (TransmissionFault 268435456) /\
    last (trace st') = Some (EvIntClear 4060086272).
Proof.
  pose proof (transmission_fault_is_fatal (drv := mock_driver)
                (demo_state [300] [268435456]) 1024 300
                (mkMock [] [268435456] [] []) 268435456
                (mkMock [] [] demo_buffer [1024]) 4
                eq_refl eq_refl ltac:(vm_compute; discriminate) eq_refl
                ltac:(vm_compute; discriminate)) as [Hrun Hdiag].
  eexists. split; [exact Hrun|]. split; [exact Hdiag|].
  vm_compute. reflexivity.
Defined.

Lemma frame_is_pushed_in_order_witness :
  exists st' s rest,
    control_state (loop_body (u32 (NUM_SAMPLES * 4)) (demo_state [256] [0]))
      = Some st' /\
    trace st' =
      [EvTxVacancy 256] ++ map EvTxPutWord demo_buffer
        ++ [EvTxSetLen 1024; EvStatus s] ++ rest.
Proof.
  destruct (frame_is_pushed_in_order (drv := mock_driver) (demo_state [256] [0]) 256
              (mkMock [] [0] [] []) eq_refl ltac:(reflexivity)
              ltac:(vm_compute; discriminate))
    as (st' & s & rest & Hst & Htr & _).
  exists st', s, rest. split; [exact Hst | exact Htr].
Defined.

Lemma fault_follows_committed_frame_witness :
  exists pre v,
    trace (returned_state (while_loop 4 1024 (demo_state [] [0; 33554432]))
             (demo_state [] []))
      = pre ++ frame_events v demo_buffer 1024 33554432
          ++ [EvPrintf msg_tx_error [33554432]; EvIntClear 4060086272].
Proof.
  set (st := demo_state [] [0; 33554432]).
  set (st' := returned_state (while_loop 4 1024 st) (demo_state [] [])).
  assert (Hlen : length (TxBuffer st) = Z.to_nat NUM_SAMPLES) by reflexivity.
  assert (Hrun : while_loop 4 1024 st = Returned XST_FAILURE st')
    by (vm_compute; reflexivity).
  assert (Hdiag : diagnosis (trace st') = Some (TransmissionFault 33554432))
    by (vm_compute; reflexivity).
  destruct (fault_follows_committed_frame 4 1024 st st' XST_FAILURE 33554432
              Hlen Hrun Hdiag)
    as (pre & v & d0 & d1 & d4 & _ & Htr & _).
  exists pre, v. exact Htr.
Defined.

(** The scripted FIFO keeps the words it is given. *)
Lemma mock_after_words ws : forall vs ss words frames,
  device_after_words (mkMock vs ss words frames) ws
    = mkMock vs ss (words ++ ws) frames.
Proof.
  induction ws as [|w ws IH]; intros vs ss words frames.
  - cbn. rewrite app_nil_r. reflexivity.
  - change (device_after_words (mkMock vs ss words frames) (w :: ws))
      with (device_after_words (mkMock vs ss (words ++ [w]) frames) ws).
    rewrite IH, <- app_assoc. reflexivity.
Qed.

(** A device with room and no fault keeps the program in its loop for
    as long as one cares to watch. *)
Lemma ready_device_streams_forever (fuel : nat) :
  forall words frames tr,
  exists st,
    while_loop fuel 1024 (mkState demo_buffer (mkMock [] [] words frames) tr)
      = Streaming st.
Proof.
  induction fuel as [|fuel IH]; intros words frames tr.
  - eexists. reflexivity.
  - cbn [while_loop].
    rewrite (loop_body_frame _ 1024 mock_vacancy (mkMock [] [] words frames) 0
               (mkMock [] [] (words ++ demo_buffer) (frames ++ [1024])));
      [ | reflexivity | vm_compute; discriminate | reflexivity | ].
    + cbn [TxBuffer]. change (Z.land 0 XLLF_INT_ERROR_MASK =? 0) with true.
      cbn iota. apply IH.
    + cbn [TxBuffer fifo]. rewrite mock_after_words. reflexivity.
Qed.

(** * Rounding in binary32

    What is needed of [SpecFloat]'s operations at precision 24: the
    results are the round-to-nearest-even of the exact values, rounding
    is monotone, and a quotient is within one unit in the last place. *)

Section Digits.

Lemma digits2_pos_size (p : positive) : digits2_pos p = Pos.size p.
Proof. induction p as [p IH|p IH|]; cbn; congruence. Qed.

Lemma Zdigits2_log2 (m : Z) : 0 < m -> Zdigits2 m = Z.log2 m + 1.
Proof.
  destruct m as [|p|p]; try lia. intros _. cbn [Zdigits2].
  rewrite digits2_pos_size.
  destruct p as [p|p|]; cbn [Z.log2 Pos.size]; lia.
Qed.

Lemma Zdigits2_bounds (m : Z) :
  0 < m -> 2 ^ (Zdigits2 m - 1) <= m < 2 ^ Zdigits2 m.
Proof.
  intros Hm. rewrite (Zdigits2_log2 m Hm).
  replace (Z.log2 m + 1 - 1) with (Z.log2 m) by lia.
  replace (Z.log2 m + 1) with (Z.succ (Z.log2 m)) by lia.
  apply Z.log2_spec. exact Hm.
Qed.

Lemma Zdigits2_unique (m k : Z) :
  2 ^ (k - 1) <= m < 2 ^ k -> 0 < k -> Zdigits2 m = k.
Proof.
  intros [Hlo Hhi] Hk.
  assert (Hm : 0 < m) by (pose proof (Z.pow_pos_nonneg 2 (k - 1)); lia).
  rewrite (Zdigits2_log2 m Hm).
  assert (Z.log2 m = k - 1); [|lia].
  apply Z.log2_unique; [lia|].
  replace (Z.succ (k - 1)) with k by lia. lia.
Qed.

Lemma Zdigits2_pos (m : Z) : 0 < m -> 0 < Zdigits2 m.
Proof.
  intros Hm. rewrite (Zdigits2_log2 m Hm).
  pose proof (Z.log2_nonneg m). lia.
Qed.

End Digits.

Section ShiftRight.

Lemma iter_pos_nat {A : Type} (f : A -> A) (p : positive) : forall x,
  SpecFloat.iter_pos f p x = Nat.iter (Pos.to_nat p) f x.
Proof.
  induction p as [p IH|p IH|]; intros x; cbn [SpecFloat.iter_pos].
  - rewrite !IH, Pos2Nat.inj_xI.
    replace (S (2 * Pos.to_nat p)) with (Pos.to_nat p + S (Pos.to_nat p))%nat by lia.
    rewrite Nat.iter_add, Nat.iter_succ_r. reflexivity.
  - rewrite !IH, Pos2Nat.inj_xO.
    replace (2 * Pos.to_nat p)%nat with (Pos.to_nat p + Pos.to_nat p)%nat by lia.
    rewrite Nat.iter_add. reflexivity.
  - reflexivity.
Qed.

(** One step: the mantissa is halved, the bit shifted out becomes the
    round bit, the old round bit joins the sticky bit. *)
Lemma shr_1_spec (m : Z) (r s : bool) :
  0 <= m ->
  let rec' := shr_1 (Build_shr_record m r s) in
  m = 2 * shr_m rec' + Z.b2z (shr_r rec') /\
  shr_s rec' = r || s /\
  0 <= shr_m rec'.
Proof.
  intros Hm. destruct m as [|[p|p|]|p]; cbn; try lia; repeat split; lia.
Qed.

(** [k + 1] steps from an exact mantissa [M]. *)
Lemma shr_1_iter_exact (M : Z) (k : nat) :
  0 <= M ->
  let rec := Nat.iter (S k) shr_1 (Build_shr_record M false false) in
  exists t,
    0 <= t < 2 ^ Z.of_nat k /\
    M = shr_m rec * 2 ^ (Z.of_nat k + 1) + Z.b2z (shr_r rec) * 2 ^ Z.of_nat k + t /\
    shr_s rec = negb (t =? 0) /\
    0 <= shr_m rec.
Proof.
  intros HM. induction k as [|k IH].
  - change (Nat.iter 1 shr_1 (Build_shr_record M false false))
      with (shr_1 (Build_shr_record M false false)).
    destruct (shr_1_spec M false false HM) as (Hm & Hs & Hpos).
    exists 0. cbn zeta. cbn [Z.of_nat]. rewrite Hs. cbn [orb negb Z.eqb].
    change (2 ^ (0 + 1)) with 2. change (2 ^ 0) with 1.
    repeat split; lia.
  - cbn zeta in *. rewrite Nat.iter_succ.
    destruct IH as (t & Ht & HMeq & Hst & Hpos).
    destruct (Nat.iter (S k) shr_1 (Build_shr_record M false false))
      as [m r s]. cbn [shr_m shr_r shr_s] in *.
    subst s.
    pose proof (shr_1_spec m r (negb (t =? 0)) Hpos) as Hstep. cbn zeta in Hstep.
    destruct (shr_1 (Build_shr_record m r (negb (t =? 0)))) as [m' r' s'].
    cbn [shr_m shr_r shr_s] in *. destruct Hstep as (Hm & Hs & Hpos').
    exists (Z.b2z r * 2 ^ Z.of_nat k + t).
    replace (Z.of_nat (S k)) with (Z.of_nat k + 1) by lia.
    rewrite !Z.pow_add_r in * by lia. change (2 ^ 1) with 2 in *.
    assert (0 < 2 ^ Z.of_nat k) by (apply Z.pow_pos_nonneg; lia).
    set (P := 2 ^ Z.of_nat k) in *.
    repeat split.
    + destruct r; cbn [Z.b2z]; lia.
    + destruct r; cbn [Z.b2z]; lia.
    + rewrite HMeq, Hm. ring.
    + rewrite Hs. destruct r; cbn [Z.b2z orb].
      * destruct (Z.eqb_spec (1 * P + t) 0); [lia|reflexivity].
      * replace (0 * P + t) with t by lia. reflexivity.
    + exact Hpos'.
Qed.

(** Shifting an exact mantissa and rounding the result to nearest even
    is [rne_div] by the power of two shifted out. *)
Lemma round_shr_exact (M : Z) (k : nat) :
  0 <= M ->
  let rec := Nat.iter (S k) shr_1 (Build_shr_record M false false) in
  round_nearest_even (shr_m rec) (loc_of_shr_record rec)
    = rne_div M (2 ^ Z.of_nat (S k)).
Proof.
  intros HM. cbn zeta.
  destruct (shr_1_iter_exact M k HM) as (t & Ht & HMeq & Hst & Hpos).
  destruct (Nat.iter (S k) shr_1 (Build_shr_record M false false))
    as [m r s]. cbn [shr_m shr_r shr_s] in *.
  replace (Z.of_nat (S k)) with (Z.of_nat k + 1) by lia.
  assert (Hp : 0 < 2 ^ Z.of_nat k) by (apply Z.pow_pos_nonneg; lia).
  assert (Hp1 : 2 ^ (Z.of_nat k + 1) = 2 * 2 ^ Z.of_nat k).
  { rewrite Z.pow_add_r by lia. change (2 ^ 1) with 2. ring. }
  rewrite Hp1 in *.
  set (P := 2 ^ Z.of_nat k) in *.
  assert (Hq : M / (2 * P) = m).
  { symmetry. apply (Z.div_unique M (2 * P) m (Z.b2z r * P + t)).
    - left. destruct r; cbn [Z.b2z]; lia.
    - lia. }
  assert (Hr : M mod (2 * P) = Z.b2z r * P + t).
  { symmetry. apply (Z.mod_unique M (2 * P) m (Z.b2z r * P + t)).
    - left. destruct r; cbn [Z.b2z]; lia.
    - lia. }
  unfold rne_div. cbn zeta. rewrite Hq, Hr.
  subst s. destruct r; cbn [Z.b2z loc_of_shr_record];
    destruct (Z.eqb_spec t 0) as [Ht0|Ht0]; cbn [negb round_nearest_even].
  - subst t. replace (2 * (1 * P + 0) ?= 2 * P) with Eq; [reflexivity|].
    symmetry. apply Z.compare_eq_iff. lia.
  - replace (2 * (1 * P + t) ?= 2 * P) with Gt; [reflexivity|].
    symmetry. apply Z.compare_gt_iff. lia.
  - replace (2 * (0 * P + t) ?= 2 * P) with Lt; [reflexivity|].
    symmetry. apply Z.compare_lt_iff. lia.
  - replace (2 * (0 * P + t) ?= 2 * P) with Lt; [reflexivity|].
    symmetry. apply Z.compare_lt_iff. lia.
Qed.

(** Whatever the location, rounding moves a mantissa by at most one. *)
Lemma round_nearest_even_bounds (m : Z) (l : location) :
  m <= round_nearest_even m l <= m + 1.
Proof.
  destruct l as [|[| |]]; cbn [round_nearest_even]; try lia.
  destruct (Z.even m); lia.
Qed.

End ShiftRight.

Section RoundNormal.

Lemma binary_round_aux_unfold (sx : bool) (m e : Z) (l : location) :
  binary_round_aux prec32 emax32 sx m e l =
    let '(mrs', e') := shr_fexp prec32 emax32 m e l in
    round_tail sx (round_nearest_even (shr_m mrs') (loc_of_shr_record mrs')) e'.
Proof.
  unfold binary_round_aux, round_tail.
  destruct (shr_fexp prec32 emax32 m e l) as [mrs' e']. reflexivity.
Qed.

Lemma fexp32_normal (k : Z) : -149 <= k - 24 -> fexp prec32 emax32 k = k - 24.
Proof.
  intros Hk. unfold fexp, emin, prec32, emax32. lia.
Qed.

Lemma rne_div_bounds (a b : Z) : a / b <= rne_div a b <= a / b + 1.
Proof.
  unfold rne_div. cbn zeta.
  destruct (2 * (a mod b) ?= b); [destruct (Z.even (a / b))| |]; lia.
Qed.

Lemma rne_div_1 (a : Z) : rne_div a 1 = a.
Proof.
  unfold rne_div. cbn zeta. rewrite Z.mod_1_r, Z.div_1_r. reflexivity.
Qed.

(** The leading 24 bits of a number of [d >= 24] digits. *)
Lemma leading_bits_bounds (m : Z) :
  0 < m -> 24 <= Zdigits2 m ->
  2 ^ 23 <= m / 2 ^ (Zdigits2 m - 24) < 2 ^ 24.
Proof.
  intros Hm Hd. pose proof (Zdigits2_bounds m Hm) as [Hlo Hhi].
  set (d := Zdigits2 m) in *.
  assert (Hp : 0 < 2 ^ (d - 24)) by (apply Z.pow_pos_nonneg; lia).
  split.
  - apply Z.div_le_lower_bound; [exact Hp|].
    rewrite <- Z.pow_add_r by lia. replace (d - 24 + 23) with (d - 1) by lia.
    exact Hlo.
  - apply Z.div_lt_upper_bound; [exact Hp|].
    rewrite <- Z.pow_add_r by lia. replace (d - 24 + 24) with d by lia.
    exact Hhi.
Qed.

(** The first half of [binary_round_aux] on an exact mantissa. *)
Lemma shr_fexp_exact (m e : Z) :
  0 < m -> 24 <= Zdigits2 m -> -149 <= Zdigits2 m + e - 24 ->
  exists rec,
    shr_fexp prec32 emax32 m e loc_Exact = (rec, Zdigits2 m + e - 24) /\
    round_nearest_even (shr_m rec) (loc_of_shr_record rec)
      = rne_div m (2 ^ (Zdigits2 m - 24)).
Proof.
  intros Hm Hd He. unfold shr_fexp.
  rewrite fexp32_normal by exact He.
  replace (Zdigits2 m + e - 24 - e) with (Zdigits2 m - 24) by lia.
  destruct (Zdigits2 m - 24) as [|p|p] eqn:Hn; [| |lia].
  - eexists. cbn [shr shr_record_of_loc]. split.
    + f_equal. lia.
    + cbn [shr_m loc_of_shr_record round_nearest_even].
      change (2 ^ 0) with 1. symmetry. apply rne_div_1.
  - eexists. cbn [shr shr_record_of_loc]. split.
    + f_equal. lia.
    + rewrite iter_pos_nat.
      destruct (Pos2Nat.is_succ p) as [k Hk]. rewrite Hk.
      rewrite round_shr_exact by lia.
      rewrite <- Hk, positive_nat_Z. reflexivity.
Qed.

(** The second half on a mantissa of 24 bits, or of 25 after a carry. *)
Lemma round_tail_finish (R E : Z) :
  2 ^ 23 <= R <= 2 ^ 24 -> -149 <= E <= 103 ->
  round_tail false R E = round_finish R E.
Proof.
  intros HR HE. unfold round_tail, round_finish, shr_fexp.
  destruct (Z.ltb_spec R (2 ^ 24)) as [Hlt|Hge].
  - rewrite (Zdigits2_unique R 24) by (change (24 - 1) with 23; lia).
    rewrite fexp32_normal by lia.
    replace (24 + E - 24 - E) with 0 by lia.
    cbn [shr shr_record_of_loc shr_m].
    destruct R as [|p|p]; try lia.
    unfold emax32, prec32. destruct (Z.leb_spec E (128 - 24)); [|lia].
    reflexivity.
  - assert (R = 2 ^ 24) by lia. subst R.
    rewrite (Zdigits2_unique (2 ^ 24) 25) by (cbn; lia).
    rewrite fexp32_normal by lia.
    replace (25 + E - 24 - E) with 1 by lia.
    cbn [shr shr_record_of_loc shr_m SpecFloat.iter_pos].
    change (shr_m (shr_1 (Build_shr_record (2 ^ 24) false false)))
      with (2 ^ 23).
    change (2 ^ 23) with (Zpos (Z.to_pos (2 ^ 23))) at 1. cbn iota.
    unfold emax32, prec32. destruct (Z.leb_spec (E + 1) (128 - 24)); [|lia].
    reflexivity.
Qed.

(** [binary_round_aux] on an exact mantissa in the normal range. *)
Lemma binary_round_aux_normal (m e : Z) :
  0 < m -> 24 <= Zdigits2 m -> -149 <= Zdigits2 m + e - 24 <= 103 ->
  binary_round_aux prec32 emax32 false m e loc_Exact = rnd_normal m e.
Proof.
  intros Hm Hd He. rewrite binary_round_aux_unfold.
  destruct (shr_fexp_exact m e Hm Hd ltac:(lia)) as (rec & -> & ->).
  unfold rnd_normal. apply round_tail_finish; [|exact He].
  pose proof (leading_bits_bounds m Hm Hd).
  pose proof (rne_div_bounds m (2 ^ (Zdigits2 m - 24))). lia.
Qed.

End RoundNormal.

Section Values.

Local Open Scope Q_scope.

Lemma pow2_pos (e : Z) : 0 < pow2 e.
Proof. unfold pow2. apply Qpower_0_lt. reflexivity. Qed.

Lemma pow2_add (a b : Z) : pow2 (a + b) == pow2 a * pow2 b.
Proof. unfold pow2. apply Qpower_plus. discriminate. Qed.

Lemma pow2_Z (n : Z) : (0 <= n)%Z -> pow2 n == inject_Z (2 ^ n).
Proof.
  intros Hn. unfold pow2. rewrite Zpower_Qpower by exact Hn. reflexivity.
Qed.

Lemma pow2_le (a b : Z) : (a <= b)%Z -> pow2 a <= pow2 b.
Proof.
  intros Hab. replace b with (a + (b - a))%Z by lia.
  rewrite pow2_add, (pow2_Z (b - a)) by lia.
  assert (H1 : (1 <= 2 ^ (b - a))%Z).
  { pose proof (Z.pow_pos_nonneg 2 (b - a)). lia. }
  assert (H2 : 1 <= inject_Z (2 ^ (b - a))).
  { change 1 with (inject_Z 1). rewrite <- Zle_Qle. exact H1. }
  pose proof (pow2_pos a). nra.
Qed.

(** Moving a power of two between mantissa and exponent. *)
Lemma val_shift (m e n : Z) : (0 <= n)%Z -> val (m * 2 ^ n) e == val m (e + n).
Proof.
  intros Hn. unfold val. rewrite pow2_add, (pow2_Z n Hn), inject_Z_mult. ring.
Qed.

Lemma val_le_same_exp (m1 m2 e : Z) : (m1 <= m2)%Z -> val m1 e <= val m2 e.
Proof.
  intros H. unfold val. pose proof (pow2_pos e).
  rewrite Zle_Qle in H. nra.
Qed.

Lemma val_le_same_exp_inv (m1 m2 e : Z) : val m1 e <= val m2 e -> (m1 <= m2)%Z.
Proof.
  unfold val. intros H. pose proof (pow2_pos e).
  rewrite Zle_Qle. nra.
Qed.

(** A number of [d] digits at exponent [e] lies in the binade
    [2^(d+e-1) .. 2^(d+e)]. *)
Lemma val_binade (m e : Z) :
  (0 < m)%Z -> pow2 (Zdigits2 m + e - 1) <= val m e < pow2 (Zdigits2 m + e).
Proof.
  intros Hm. pose proof (Zdigits2_bounds m Hm) as [Hlo Hhi].
  pose proof (Zdigits2_pos m Hm) as Hd.
  replace (Zdigits2 m + e - 1)%Z with (e + (Zdigits2 m - 1))%Z by lia.
  replace (Zdigits2 m + e)%Z with (e + Zdigits2 m)%Z by lia.
  rewrite !pow2_add.
  rewrite (pow2_Z (Zdigits2 m - 1)), (pow2_Z (Zdigits2 m)) by lia.
  unfold val. pose proof (pow2_pos e).
  rewrite Zle_Qle in Hlo. rewrite Zlt_Qlt in Hhi.
  split; nra.
Qed.

Lemma F2Q_round_finish (R E : Z) :
  (2 ^ 23 <= R <= 2 ^ 24)%Z -> F2Q (round_finish R E) == val R E.
Proof.
  intros HR. unfold round_finish.
  destruct (Z.ltb_spec R (2 ^ 24)) as [Hlt|Hge]; cbn [F2Q].
  - rewrite Z2Pos.id by lia. reflexivity.
  - assert (R = 2 ^ 24)%Z by lia. subst R.
    change (2 ^ 24)%Z with (2 ^ 23 * 2 ^ 1)%Z.
    rewrite val_shift by lia. reflexivity.
Qed.

End Values.

Section Monotone.

(** Rounding to nearest even is monotone in the fraction it rounds. *)
Lemma rne_div_mono (a1 b1 a2 b2 : Z) :
  0 < b1 -> 0 < b2 -> a1 * b2 <= a2 * b1 ->
  rne_div a1 b1 <= rne_div a2 b2.
Proof.
  intros Hb1 Hb2 Hle.
  pose proof (Z.div_mod a1 b1 ltac:(lia)) as Ha1.
  pose proof (Z.div_mod a2 b2 ltac:(lia)) as Ha2.
  pose proof (Z.mod_pos_bound a1 b1 Hb1) as Hr1.
  pose proof (Z.mod_pos_bound a2 b2 Hb2) as Hr2.
  unfold rne_div. cbn zeta.
  set (q1 := a1 / b1) in *. set (r1 := a1 mod b1) in *.
  set (q2 := a2 / b2) in *. set (r2 := a2 mod b2) in *.
  assert (Hq : q1 <= q2).
  { destruct (Z.le_gt_cases q1 q2) as [H|H]; [exact H|exfalso].
    assert (b1 * b2 * (q2 + 1) <= b1 * b2 * q1) by (apply Z.mul_le_mono_nonneg_l; nia).
    nia. }
  destruct (Z.eq_dec q1 q2) as [Heq|Hne].
  - rewrite <- Heq in *.
    assert (Hr : r1 * b2 <= r2 * b1) by nia.
    destruct (Z.compare_spec (2 * r1) b1) as [H1|H1|H1];
      destruct (Z.compare_spec (2 * r2) b2) as [H2|H2|H2];
      try (destruct (Z.even q1)); try lia; exfalso; nia.
  - assert (q1 + 1 <= q2) by lia.
    destruct (2 * r1 ?= b1); destruct (2 * r2 ?= b2);
      try (destruct (Z.even q1)); try (destruct (Z.even q2)); lia.
Qed.

Local Open Scope Q_scope.

Lemma F2Q_rnd_normal (m e : Z) :
  (0 < m)%Z -> (24 <= Zdigits2 m)%Z ->
  F2Q (rnd_normal m e)
    == val (rne_div m (2 ^ (Zdigits2 m - 24))) (Zdigits2 m + e - 24).
Proof.
  intros Hm Hd. unfold rnd_normal. apply F2Q_round_finish.
  pose proof (leading_bits_bounds m Hm Hd).
  pose proof (rne_div_bounds m (2 ^ (Zdigits2 m - 24))). lia.
Qed.

(** Rounding is monotone: a smaller exact value rounds to a smaller (or
    the same) float. *)
Lemma rnd_normal_mono (m1 e1 m2 e2 : Z) :
  (0 < m1)%Z -> (24 <= Zdigits2 m1)%Z ->
  (0 < m2)%Z -> (24 <= Zdigits2 m2)%Z ->
  val m1 e1 <= val m2 e2 ->
  F2Q (rnd_normal m1 e1) <= F2Q (rnd_normal m2 e2).
Proof.
  intros Hm1 Hd1 Hm2 Hd2 Hle.
  rewrite !F2Q_rnd_normal by assumption.
  pose proof (val_binade m1 e1 Hm1) as [Hlo1 Hhi1].
  pose proof (val_binade m2 e2 Hm2) as [Hlo2 Hhi2].
  pose proof (leading_bits_bounds m1 Hm1 Hd1) as HL1.
  pose proof (leading_bits_bounds m2 Hm2 Hd2) as HL2.
  pose proof (rne_div_bounds m1 (2 ^ (Zdigits2 m1 - 24))) as HR1.
  pose proof (rne_div_bounds m2 (2 ^ (Zdigits2 m2 - 24))) as HR2.
  set (d1 := Zdigits2 m1) in *. set (d2 := Zdigits2 m2) in *.
  set (R1 := rne_div m1 (2 ^ (d1 - 24))) in *.
  set (R2 := rne_div m2 (2 ^ (d2 - 24))) in *.
  assert (Hmag : (d1 + e1 <= d2 + e2)%Z).
  { destruct (Z.le_gt_cases (d1 + e1) (d2 + e2)) as [H|H]; [exact H|exfalso].
    pose proof (pow2_le (d2 + e2) (d1 + e1 - 1) ltac:(lia)). lra. }
  destruct (Z.eq_dec (d1 + e1)%Z (d2 + e2)%Z) as [Heq|Hne].
  - replace (d2 + e2 - 24)%Z with (d1 + e1 - 24)%Z by lia.
    apply val_le_same_exp. subst R1 R2.
    assert (Hp1 : (0 < 2 ^ (d1 - 24))%Z) by (apply Z.pow_pos_nonneg; lia).
    assert (Hp2 : (0 < 2 ^ (d2 - 24))%Z) by (apply Z.pow_pos_nonneg; lia).
    apply rne_div_mono; [exact Hp1|exact Hp2|].
    apply (val_le_same_exp_inv _ _ (e1 - d2 + 24)).
    rewrite !val_shift by lia.
    replace (e1 - d2 + 24 + (d2 - 24))%Z with e1 by lia.
    replace (e1 - d2 + 24 + (d1 - 24))%Z with e2 by lia.
    exact Hle.
  - assert (Hup : val R1 (d1 + e1 - 24) <= pow2 (d1 + e1)).
    { replace (d1 + e1)%Z with (d1 + e1 - 24 + 24)%Z at 2 by lia.
      rewrite pow2_add, (pow2_Z 24) by lia.
      unfold val. pose proof (pow2_pos (d1 + e1 - 24)).
      assert (inject_Z R1 <= inject_Z (2 ^ 24)) by (rewrite <- Zle_Qle; lia).
      nra. }
    assert (Hdn : pow2 (d2 + e2 - 1) <= val R2 (d2 + e2 - 24)).
    { replace (d2 + e2 - 1)%Z with (d2 + e2 - 24 + 23)%Z by lia.
      rewrite pow2_add, (pow2_Z 23) by lia.
      unfold val. pose proof (pow2_pos (d2 + e2 - 24)).
      assert (inject_Z (2 ^ 23) <= inject_Z R2) by (rewrite <- Zle_Qle; lia).
      nra. }
    pose proof (pow2_le (d1 + e1) (d2 + e2 - 1) ltac:(lia)). lra.
Qed.

End Monotone.

Section Operations.

Local Open Scope Q_scope.

Lemma pow2_lt_inv (a b : Z) : pow2 a < pow2 b -> (a < b)%Z.
Proof.
  intros H. destruct (Z.lt_ge_cases a b) as [Hlt|Hge]; [exact Hlt|exfalso].
  pose proof (pow2_le b a Hge). lra.
Qed.

(** The magnitude of a number read off bounds on its value. *)
Lemma mag_range (m e lo hi : Z) :
  (0 < m)%Z -> pow2 lo <= val m e -> val m e < pow2 hi ->
  (lo + 1 <= Zdigits2 m + e <= hi)%Z.
Proof.
  intros Hm Hlo Hhi. pose proof (val_binade m e Hm) as [Hb1 Hb2].
  assert (pow2 lo < pow2 (Zdigits2 m + e)) by lra.
  assert (pow2 (Zdigits2 m + e - 1) < pow2 hi) by lra.
  pose proof (pow2_lt_inv _ _ H). pose proof (pow2_lt_inv _ _ H0). lia.
Qed.

(** What rounding gives is a positive normal number. *)
Lemma rounds_to_normal (v : Q) (x : f32) :
  rounds_to v x -> normal_pos (-149) 104 x.
Proof.
  intros (m & e & Hm & Hd & He & _ & ->).
  pose proof (leading_bits_bounds m Hm Hd).
  pose proof (rne_div_bounds m (2 ^ (Zdigits2 m - 24))).
  unfold rnd_normal, round_finish, normal_pos.
  destruct (Z.ltb_spec (rne_div m (2 ^ (Zdigits2 m - 24))) (2 ^ 24)).
  - eexists _, _. split; [reflexivity|].
    rewrite Z2Pos.id by lia. lia.
  - eexists _, _. split; [reflexivity|].
    rewrite Z2Pos.id by lia. lia.
Qed.

Lemma rounds_to_mono (v1 v2 : Q) (x1 x2 : f32) :
  rounds_to v1 x1 -> rounds_to v2 x2 -> v1 <= v2 -> F2Q x1 <= F2Q x2.
Proof.
  intros (m1 & e1 & Hm1 & Hd1 & _ & Hv1 & ->)
         (m2 & e2 & Hm2 & Hd2 & _ & Hv2 & ->) Hle.
  apply rnd_normal_mono; try assumption.
  rewrite Hv1, Hv2. exact Hle.
Qed.

Lemma normal_pos_value (lo hi : Z) (x : f32) :
  normal_pos lo hi x -> pow2 (lo + 23) <= F2Q x < pow2 (hi + 24).
Proof.
  intros (m & e & -> & Hm & He). cbn [F2Q].
  pose proof (pow2_le (lo + 23) (e + 23) ltac:(lia)).
  pose proof (pow2_le (e + 24) (hi + 24) ltac:(lia)).
  rewrite (pow2_add e 23), (pow2_Z 23) in H by lia.
  rewrite (pow2_add e 24), (pow2_Z 24) in H0 by lia.
  pose proof (pow2_pos e).
  assert (inject_Z (2 ^ 23) <= inject_Z (Zpos m)) by (rewrite <- Zle_Qle; lia).
  assert (inject_Z (Zpos m) < inject_Z (2 ^ 24)) by (rewrite <- Zlt_Qlt; lia).
  split; nra.
Qed.

(** The exponent of a positive normal number read off bounds on its
    value. *)
Lemma normal_pos_exponent (lo hi lo' hi' : Z) (x : f32) :
  normal_pos lo hi x -> pow2 lo' <= F2Q x -> F2Q x < pow2 hi' ->
  normal_pos (lo' - 23) (hi' - 24) x.
Proof.
  intros (m & e & -> & Hm & He) Hlo Hhi. cbn [F2Q] in *.
  pose proof (mag_range (Zpos m) e lo' hi' ltac:(lia) Hlo Hhi).
  rewrite (Zdigits2_unique (Zpos m) 24) in H by (change (24 - 1)%Z with 23%Z; lia).
  exists m, e. split; [reflexivity|]. split; [exact Hm|]. lia.
Qed.

Lemma Zpos_iter_xO (m d : positive) :
  Zpos (Pos.iter xO m d) = (Zpos m * 2 ^ Zpos d)%Z.
Proof.
  induction d as [|d IH] using Pos.peano_ind.
  - cbn [Pos.iter]. change (2 ^ 1)%Z with 2%Z. lia.
  - rewrite Pos.iter_succ, Pos2Z.inj_xO, IH, Pos2Z.inj_succ, Z.pow_succ_r by lia.
    ring.
Qed.

Lemma shl_align_spec (mx : positive) (ex ez : Z) :
  (ez <= ex)%Z ->
  shl_align mx ex ez = (Z.to_pos (Zpos mx * 2 ^ (ex - ez)), ez).
Proof.
  intros Hle. unfold shl_align.
  destruct (ez - ex)%Z as [|p|p] eqn:Hd; try lia.
  - replace (ex - ez)%Z with 0%Z by lia. rewrite Z.mul_1_r. cbn [Z.to_pos].
    f_equal. lia.
  - replace (ex - ez)%Z with (Zpos p) by lia.
    rewrite <- Zpos_iter_xO. reflexivity.
Qed.

Lemma Zdigits2_shift (m n : Z) :
  (0 < m)%Z -> (0 <= n)%Z -> Zdigits2 (m * 2 ^ n) = (Zdigits2 m + n)%Z.
Proof.
  intros Hm Hn. pose proof (Zdigits2_bounds m Hm) as [Hlo Hhi].
  pose proof (Zdigits2_pos m Hm).
  assert (0 < 2 ^ n)%Z by (apply Z.pow_pos_nonneg; lia).
  apply Zdigits2_unique; [|lia].
  replace (Zdigits2 m + n - 1)%Z with (Zdigits2 m - 1 + n)%Z by lia.
  rewrite !Z.pow_add_r by lia. split; nia.
Qed.

(** [binary_round] first pads a short mantissa to 24 bits. *)
Lemma binary_round_rounds (m : positive) (e : Z) :
  (-149 <= Zdigits2 (Zpos m) + e - 24 <= 103)%Z ->
  rounds_to (val (Zpos m) e) (binary_round prec32 emax32 false m e).
Proof.
  intros He. unfold binary_round.
  change (Zpos (digits2_pos m)) with (Zdigits2 (Zpos m)).
  rewrite fexp32_normal by lia.
  set (d := Zdigits2 (Zpos m)) in *.
  destruct (Z.le_gt_cases 24 d) as [Hd|Hd].
  - unfold shl_align.
    destruct (d + e - 24 - e)%Z as [|p|p] eqn:Hn; try lia;
      rewrite binary_round_aux_normal by (fold d; lia);
      exists (Zpos m), e; fold d; repeat split; try lia; reflexivity.
  - rewrite shl_align_spec by lia.
    replace (e - (d + e - 24))%Z with (24 - d)%Z by lia.
    assert (Hdig : Zdigits2 (Zpos m * 2 ^ (24 - d)) = 24%Z).
    { rewrite Zdigits2_shift by lia. fold d. lia. }
    assert (Hpos : (0 < Zpos m * 2 ^ (24 - d))%Z).
    { pose proof (Z.pow_pos_nonneg 2 (24 - d)). nia. }
    rewrite Z2Pos.id by exact Hpos.
    rewrite binary_round_aux_normal by (rewrite ?Hdig; lia).
    exists (Zpos m * 2 ^ (24 - d))%Z, (d + e - 24)%Z.
    rewrite Hdig. repeat split; try lia.
    rewrite val_shift by lia. replace (d + e - 24 + (24 - d))%Z with e by lia.
    reflexivity.
Qed.

End Operations.

Section Arithmetic.

Local Open Scope Q_scope.

(** [(float) i] for a positive [u32]. *)
Lemma f32_of_u32_rounds (i : Z) :
  (1 <= i < 2 ^ 32)%Z -> rounds_to (inject_Z i) (f32_of_u32 i).
Proof.
  intros Hi. unfold f32_of_u32, binary_normalize.
  destruct i as [|p|p]; try lia.
  assert (Hd : (1 <= Zdigits2 (Zpos p) <= 32)%Z).
  { pose proof (Zdigits2_bounds (Zpos p) ltac:(lia)) as [Hlo _].
    pose proof (Zdigits2_pos (Zpos p) ltac:(lia)).
    split; [lia|].
    destruct (Z.le_gt_cases (Zdigits2 (Zpos p)) 32) as [H1|H1]; [exact H1|exfalso].
    pose proof (Z.pow_le_mono_r 2 32 (Zdigits2 (Zpos p) - 1) ltac:(lia) ltac:(lia)).
    lia. }
  pose proof (binary_round_rounds p 0 ltac:(lia)) as Hr.
  destruct Hr as (m & e & Hm & Hdm & He & Hv & Heq).
  exists m, e. repeat split; try assumption; try lia.
  rewrite Hv. unfold val, pow2. cbn. ring.
Qed.

(** The product of two positive normal numbers. *)
Lemma f32_mul_rounds (lx hx ly hy : Z) (x y : f32) :
  normal_pos lx hx x -> normal_pos ly hy y ->
  (-172 <= lx + ly)%Z -> (hx + hy <= 79)%Z ->
  rounds_to (F2Q x * F2Q y) (f32_mul x y).
Proof.
  intros (mx & ex & -> & Hmx & Hex) (my & ey & -> & Hmy & Hey) Hlo Hhi.
  unfold f32_mul. cbn [SFmul xorb F2Q].
  assert (Hprod : (2 ^ 46 <= Zpos (mx * my) < 2 ^ 48)%Z).
  { rewrite Pos2Z.inj_mul.
    change (2 ^ 46)%Z with (2 ^ 23 * 2 ^ 23)%Z.
    change (2 ^ 48)%Z with (2 ^ 24 * 2 ^ 24)%Z. nia. }
  assert (Hd : (47 <= Zdigits2 (Zpos (mx * my)) <= 48)%Z).
  { destruct (Z.lt_ge_cases (Zpos (mx * my)) (2 ^ 47)).
    - rewrite (Zdigits2_unique _ 47); [lia| |lia].
      change (47 - 1)%Z with 46%Z. lia.
    - rewrite (Zdigits2_unique _ 48); [lia| |lia].
      change (48 - 1)%Z with 47%Z. lia. }
  rewrite binary_round_aux_normal by lia.
  exists (Zpos (mx * my)), (ex + ey)%Z.
  repeat split; try lia.
  unfold val. rewrite Pos2Z.inj_mul, inject_Z_mult, pow2_add. ring.
Qed.

(** The sum of two positive normal numbers. *)
Lemma f32_add_rounds (lx hx ly hy : Z) (x y : f32) :
  normal_pos lx hx x -> normal_pos ly hy y ->
  (-149 <= lx)%Z -> (hx <= 78)%Z -> (hy <= 78)%Z ->
  rounds_to (F2Q x + F2Q y) (f32_add x y).
Proof.
  intros Hx Hy Hlo Hhx Hhy.
  pose proof (normal_pos_value _ _ _ Hx) as [Hvx1 Hvx2].
  pose proof (normal_pos_value _ _ _ Hy) as [Hvy1 Hvy2].
  destruct Hx as (mx & ex & -> & Hmx & Hex).
  destruct Hy as (my & ey & -> & Hmy & Hey).
  unfold f32_add. cbn [SFadd cond_Zopp F2Q] in *.
  set (ez := Z.min ex ey).
  rewrite !shl_align_spec by (subst ez; lia). cbn [fst].
  assert (Hpx : (0 < Zpos mx * 2 ^ (ex - ez))%Z).
  { pose proof (Z.pow_pos_nonneg 2 (ex - ez)). subst ez. nia. }
  assert (Hpy : (0 < Zpos my * 2 ^ (ey - ez))%Z).
  { pose proof (Z.pow_pos_nonneg 2 (ey - ez)). subst ez. nia. }
  rewrite !Z2Pos.id by assumption.
  set (S := (Zpos mx * 2 ^ (ex - ez) + Zpos my * 2 ^ (ey - ez))%Z).
  assert (HS : (0 < S)%Z) by (subst S; lia).
  assert (HvS : val S ez == inject_Z (Zpos mx) * pow2 ex + inject_Z (Zpos my) * pow2 ey).
  { subst S. unfold val. rewrite inject_Z_plus.
    rewrite Qmult_plus_distr_l.
    fold (val (Zpos mx * 2 ^ (ex - ez)) ez). fold (val (Zpos my * 2 ^ (ey - ez)) ez).
    rewrite !val_shift by (subst ez; lia).
    replace (ez + (ex - ez))%Z with ex by lia.
    replace (ez + (ey - ez))%Z with ey by lia. reflexivity. }
  assert (Hmag : (lx + 24 <= Zdigits2 S + ez <= 127)%Z).
  { pose proof (pow2_pos (ly + 23)).
    pose proof (pow2_le (hx + 24) 126 ltac:(lia)).
    pose proof (pow2_le (hy + 24) 126 ltac:(lia)).
    assert (H127 : pow2 127 == pow2 126 + pow2 126).
    { change 127%Z with (126 + 1)%Z. rewrite pow2_add. unfold pow2 at 2. cbn. ring. }
    pose proof (mag_range S ez (lx + 23) 127 HS
                  ltac:(rewrite HvS; lra) ltac:(rewrite HvS, H127; lra)).
    lia. }
  destruct S as [|pS|pS] eqn:HSeq; try lia.
  cbn [binary_normalize].
  pose proof (binary_round_rounds pS ez ltac:(lia)) as (m & e & Hm & Hd & He & Hv & Heq).
  exists m, e. repeat split; try assumption; try lia.
  rewrite Hv. exact HvS.
Qed.

(** The cast to [u32] of a positive float below [2^32] is the floor of
    its value. *)
Lemma f32_to_u32_floor (m : positive) (e : Z) :
  F2Q (S754_finite false m e) < inject_Z (2 ^ 32) ->
  f32_to_u32 (S754_finite false m e) = Ok (Qfloor (F2Q (S754_finite false m e))).
Proof.
  intros Hlt. cbn [f32_to_u32 F2Q] in *.
  assert (Ht : f32_trunc m e = Qfloor (inject_Z (Zpos m) * pow2 e)).
  { unfold f32_trunc. destruct e as [|p|p].
    - rewrite Z.shiftl_0_r, <- (Qfloor_Z (Zpos m)) at 1.
      apply Qfloor_comp. unfold pow2. cbn [Qpower]. ring.
    - rewrite Z.shiftl_mul_pow2, <- (Qfloor_Z (Zpos m * 2 ^ Zpos p)) by lia.
      apply Qfloor_comp.
      rewrite (pow2_Z (Zpos p)), inject_Z_mult by lia. reflexivity.
    - rewrite Z.shiftr_div_pow2 by lia. rewrite Zdiv_Qdiv.
      apply Qfloor_comp. unfold Qdiv.
      change (Zneg p) with (- Zpos p)%Z.
      unfold pow2. rewrite Qpower_opp. fold (pow2 (Zpos p)).
      rewrite pow2_Z by lia. reflexivity. }
  rewrite Ht.
  destruct (Z.ltb_spec (Qfloor (inject_Z (Zpos m) * pow2 e)) (2 ^ 32)) as [H|H];
    [reflexivity|exfalso].
  pose proof (Qfloor_le (inject_Z (Zpos m) * pow2 e)).
  rewrite Zle_Qle in H. lra.
Qed.

End Arithmetic.

Section Division.

Lemma loc_of_shr_record_of_loc (m : Z) (l : location) :
  loc_of_shr_record (shr_record_of_loc m l) = l.
Proof. destruct l as [|[| |]]; reflexivity. Qed.

Lemma shr_m_shr_record_of_loc (m : Z) (l : location) :
  shr_m (shr_record_of_loc m l) = m.
Proof. destruct l as [|[| |]]; reflexivity. Qed.

Lemma shr_m_shr_1 (rec : shr_record) :
  0 <= shr_m rec -> shr_m (shr_1 rec) = shr_m rec / 2.
Proof.
  destruct rec as [m r s]. cbn [shr_m]. intros Hm.
  destruct (shr_1_spec m r s Hm) as (Heq & _ & _).
  apply (Z.div_unique m 2 _ (Z.b2z (shr_r (shr_1 (Build_shr_record m r s))))).
  - left. destruct (shr_r _); cbn; lia.
  - exact Heq.
Qed.

(** The quotient of two positive normal numbers: a mantissa [R] at
    exponent [E], at most one unit in the last place above the exact
    quotient. *)
Lemma f32_div_normal (mx my : positive) (ex ey : Z) :
  2 ^ 23 <= Zpos mx < 2 ^ 24 -> 2 ^ 23 <= Zpos my < 2 ^ 24 ->
  -149 <= ex - ey - 24 -> ex - ey - 23 <= 103 ->
  exists R n,
    f32_div (S754_finite false mx ex) (S754_finite false my ey)
      = round_finish R (ex - ey - 24 + n) /\
    2 ^ 23 <= R <= 2 ^ 24 /\ 0 <= n <= 1 /\
    (R - 1) * 2 ^ n * Zpos my <= Zpos mx * 2 ^ 24.
Proof.
  intros Hmx Hmy Hlo Hhi.
  unfold f32_div. cbn [SFdiv xorb]. unfold SFdiv_core_binary.
  rewrite !(Zdigits2_unique _ 24) by (change (24 - 1) with 23; lia).
  rewrite fexp32_normal by lia.
  replace (Z.min (24 + ex - (24 + ey) - 24) (ex - ey)) with (ex - ey - 24) by lia.
  replace (ex - ey - (ex - ey - 24)) with 24 by lia.
  rewrite Z.shiftl_mul_pow2 by lia.
  destruct (Z.div_eucl (Zpos mx * 2 ^ 24) (Zpos my)) as [q r] eqn:Hdiv.
  assert (Hq : q = Zpos mx * 2 ^ 24 / Zpos my).
  { unfold Z.div. rewrite Hdiv. reflexivity. }
  assert (Hqlo : 2 ^ 23 <= q).
  { rewrite Hq. apply Z.div_le_lower_bound; [lia|].
    change (2 ^ 24) with (2 * 2 ^ 23) in *. nia. }
  assert (Hqhi : q < 2 ^ 25).
  { rewrite Hq. apply Z.div_lt_upper_bound; [lia|].
    change (2 ^ 25) with (2 * 2 ^ 24). change (2 ^ 24) with (2 * 2 ^ 23) in *. nia. }
  assert (Hqmul : q * Zpos my <= Zpos mx * 2 ^ 24).
  { rewrite Hq, Z.mul_comm. apply Z.mul_div_le. lia. }
  rewrite binary_round_aux_unfold. unfold shr_fexp.
  set (l := new_location (Zpos my) r).
  destruct (Z.lt_ge_cases q (2 ^ 24)) as [Hsmall|Hbig].
  - rewrite (Zdigits2_unique q 24) by (change (24 - 1) with 23; lia).
    rewrite fexp32_normal by lia.
    replace (24 + (ex - ey - 24) - 24 - (ex - ey - 24)) with 0 by lia.
    cbn [shr]. rewrite loc_of_shr_record_of_loc, shr_m_shr_record_of_loc.
    pose proof (round_nearest_even_bounds q l) as HR.
    exists (round_nearest_even q l), 0.
    rewrite round_tail_finish by lia.
    replace (ex - ey - 24 + 0) with (ex - ey - 24) by lia.
    split; [reflexivity|]. split; [lia|]. split; [lia|].
    change (2 ^ 0) with 1. nia.
  - rewrite (Zdigits2_unique q 25) by (change (25 - 1) with 24; lia).
    rewrite fexp32_normal by lia.
    replace (25 + (ex - ey - 24) - 24 - (ex - ey - 24)) with 1 by lia.
    cbn [shr SpecFloat.iter_pos].
    set (rec := shr_1 (shr_record_of_loc q l)).
    assert (Hm : shr_m rec = q / 2).
    { subst rec. rewrite shr_m_shr_1; rewrite shr_m_shr_record_of_loc; [reflexivity|lia]. }
    pose proof (round_nearest_even_bounds (shr_m rec) (loc_of_shr_record rec)) as HR.
    assert (Hhalf : 2 ^ 23 <= q / 2 < 2 ^ 24).
    { split.
      - apply Z.div_le_lower_bound; [lia|]. change (2 ^ 24) with (2 * 2 ^ 23) in *. lia.
      - apply Z.div_lt_upper_bound; [lia|]. change (2 ^ 25) with (2 * 2 ^ 24) in *. lia. }
    exists (round_nearest_even (shr_m rec) (loc_of_shr_record rec)), 1.
    rewrite round_tail_finish by lia.
    split; [reflexivity|]. split; [lia|]. split; [lia|].
    change (2 ^ 1) with 2.
    pose proof (Z.mul_div_le q 2 ltac:(lia)) as Hq2.
    set (R := round_nearest_even (shr_m rec) (loc_of_shr_record rec)) in *.
    assert (Hle : (R - 1) * 2 <= q) by lia.
    apply Z.le_trans with (q * Zpos my); [|exact Hqmul].
    apply Z.mul_le_mono_nonneg_r; lia.
Qed.

End Division.

Section Representable.

Local Open Scope Q_scope.

Lemma round_finish_normal (R E : Z) :
  (2 ^ 23 <= R <= 2 ^ 24)%Z -> normal_pos E (E + 1) (round_finish R E).
Proof.
  intros HR. unfold round_finish, normal_pos.
  destruct (Z.ltb_spec R (2 ^ 24)).
  - exists (Z.to_pos R), E. rewrite Z2Pos.id by lia. repeat split; lia.
  - exists (Z.to_pos (2 ^ 23)), (E + 1)%Z. repeat split; cbn; lia.
Qed.

Lemma normal_pos_weaken (lo hi lo' hi' : Z) (x : f32) :
  normal_pos lo hi x -> (lo' <= lo)%Z -> (hi <= hi')%Z -> normal_pos lo' hi' x.
Proof.
  intros (m & e & -> & Hm & He) Hlo Hhi. exists m, e. repeat split; lia.
Qed.

Lemma rounds_to_eq (v v' : Q) (x : f32) :
  v == v' -> rounds_to v x -> rounds_to v' x.
Proof.
  intros Hv (m & e & Hm & Hd & He & Hval & ->).
  exists m, e. repeat split; try assumption; try lia.
  rewrite Hval. exact Hv.
Qed.

(** A representable value rounds to itself. *)
Lemma rounds_to_exact (m e : Z) (x : f32) :
  (0 < m)%Z -> (24 <= Zdigits2 m)%Z -> (-149 <= Zdigits2 m + e - 24 <= 103)%Z ->
  x = rnd_normal m e -> rounds_to (val m e) x.
Proof.
  intros Hm Hd He ->. exists m, e. repeat split; try assumption; try lia.
Qed.

End Representable.

(** [rounds_to (val m e) x] for a literal mantissa, exponent and float. *)
Ltac rounds_exactly :=
  apply rounds_to_exact;
  [ reflexivity
  | vm_compute; discriminate
  | split; vm_compute; discriminate
  | vm_compute; reflexivity ].

Section Conversions.

Local Open Scope Q_scope.

Lemma f32_half_normal : normal_pos (-24) (-24) f32_half.
Proof.
  exists 8388608%positive, (-24)%Z. repeat split; cbn; lia.
Qed.

Lemma F2Q_half : F2Q f32_half == 1 # 2.
Proof. reflexivity. Qed.

Lemma rounds_to_half : rounds_to (1 # 2) f32_half.
Proof.
  apply (rounds_to_eq (val (2 ^ 23) (-24))); [reflexivity|].
  rounds_exactly.
Qed.

(** A positive [u32] converts to a normal float between [1] and [2^32]. *)
Lemma f32_of_u32_normal (i : Z) :
  (1 <= i < 2 ^ 32)%Z -> normal_pos (-23) 9 (f32_of_u32 i).
Proof.
  intros Hi. pose proof (f32_of_u32_rounds i Hi) as Hr.
  pose proof (rounds_to_normal _ _ Hr) as Hn.
  assert (Hlo : pow2 0 <= F2Q (f32_of_u32 i)).
  { assert (H1 : rounds_to (val (2 ^ 24) (-24)) (S754_finite false 8388608 (-23)))
      by rounds_exactly.
    pose proof (rounds_to_mono _ _ _ _ H1 Hr) as Hm.
    assert (Hone : val (2 ^ 24) (-24) == 1) by reflexivity.
    rewrite Hone in Hm.
    assert (Hle : 1 <= inject_Z i).
    { change 1 with (inject_Z 1). rewrite <- Zle_Qle. lia. }
    specialize (Hm Hle).
    assert (Hv : F2Q (S754_finite false 8388608 (-23)) == pow2 0) by reflexivity.
    rewrite <- Hv. exact Hm. }
  assert (Hhi : F2Q (f32_of_u32 i) < pow2 33).
  { assert (H1 : rounds_to (val (2 ^ 32) 0) (S754_finite false 8388608 9))
      by rounds_exactly.
    pose proof (rounds_to_mono _ _ _ _ Hr H1) as Hm.
    assert (Htop : val (2 ^ 32) 0 == inject_Z (2 ^ 32)) by reflexivity.
    rewrite Htop in Hm.
    assert (Hle : inject_Z i <= inject_Z (2 ^ 32)) by (rewrite <- Zle_Qle; lia).
    specialize (Hm Hle).
    assert (Hv : F2Q (S754_finite false 8388608 9) < pow2 33) by reflexivity.
    lra. }
  exact (normal_pos_exponent _ _ 0 33 _ Hn Hlo Hhi).
Qed.

(** The conversion is monotone. *)
Lemma f32_of_u32_mono (i j : Z) :
  (1 <= i <= j)%Z -> (j < 2 ^ 32)%Z -> F2Q (f32_of_u32 i) <= F2Q (f32_of_u32 j).
Proof.
  intros Hij Hj.
  apply (rounds_to_mono (inject_Z i) (inject_Z j)).
  - apply f32_of_u32_rounds. lia.
  - apply f32_of_u32_rounds. lia.
  - rewrite <- Zle_Qle. lia.
Qed.

(** At index 0 the product is zero and the sum is [0.5f]. *)
Lemma ramp_sum_zero (lo hi : Z) (scale : f32) :
  normal_pos lo hi scale -> ramp_sum scale 0 = f32_half.
Proof. intros (m & e & -> & _ & _). reflexivity. Qed.

End Conversions.

(** * The ramp computation for [NumSamples >= 3] *)

Section Ramp.

Local Open Scope Q_scope.

Variable N : Z.
Hypothesis HN : (3 <= N < 2 ^ 32)%Z.

(** The scale factor is a positive normal number, and scaling the
    float of [NumSamples - 2] by it stays below [MAX_COUNT + 1]. *)
Lemma scaleFactor_spec :
  normal_pos (-43) (-9) (scaleFactor N) /\
  F2Q (scaleFactor N) * F2Q (f32_of_u32 (N - 2)) < inject_Z 16384.
Proof.
  unfold scaleFactor, u32.
  rewrite (Z.mod_small (N - 2)) by lia.
  change (f32_of_u32 MAX_COUNT) with (S754_finite false 16776192 (-10)).
  destruct (f32_of_u32_normal (N - 2) ltac:(lia)) as (mb & eb & -> & Hmb & Heb).
  destruct (f32_div_normal 16776192 mb (-10) eb ltac:(cbn; lia) Hmb
              ltac:(lia) ltac:(lia)) as (R & n & -> & HR & Hn & Hbound).
  split.
  - apply (normal_pos_weaken (-10 - eb - 24 + n) (-10 - eb - 24 + n + 1));
      [apply round_finish_normal; exact HR | lia | lia].
  - rewrite F2Q_round_finish by exact HR. cbn [F2Q].
    assert (HZ : (R * Zpos mb * 2 ^ n < 16776194 * 2 ^ 24)%Z).
    { assert (Hn' : n = 0%Z \/ n = 1%Z) by lia.
      destruct Hn' as [-> | ->];
        [change (2 ^ 0)%Z with 1%Z in * | change (2 ^ 1)%Z with 2%Z in *]; nia. }
    assert (Hv : val R (-10 - eb - 24 + n) * (inject_Z (Zpos mb) * pow2 eb)
                 == inject_Z (R * Zpos mb * 2 ^ n) * pow2 (-34)).
    { unfold val. rewrite !inject_Z_mult, <- (pow2_Z n) by lia.
      replace (-10 - eb - 24 + n)%Z with (-34 + n + - eb)%Z by lia.
      rewrite !pow2_add.
      assert (He : pow2 (- eb) * pow2 eb == 1).
      { rewrite <- pow2_add. replace (- eb + eb)%Z with 0%Z by lia. reflexivity. }
      transitivity (inject_Z R * inject_Z (Zpos mb) * pow2 n * pow2 (-34)
                    * (pow2 (- eb) * pow2 eb)); [ring|].
      rewrite He. ring. }
    rewrite Hv.
    assert (Hc : inject_Z (16776194 * 2 ^ 24) * pow2 (-34) < inject_Z 16384)
      by reflexivity.
    apply Qle_lt_trans with (inject_Z (16776194 * 2 ^ 24) * pow2 (-34));
      [|exact Hc].
    pose proof (pow2_pos (-34)).
    assert (inject_Z (R * Zpos mb * 2 ^ n) <= inject_Z (16776194 * 2 ^ 24))
      by (rewrite <- Zle_Qle; lia).
    nra.
Qed.

(** The product [i * scaleFactor] for an index of the ramp. *)
Lemma ramp_product_spec (i : Z) :
  (1 <= i <= N - 2)%Z ->
  let p := f32_mul (f32_of_u32 i) (scaleFactor N) in
  rounds_to (F2Q (f32_of_u32 i) * F2Q (scaleFactor N)) p /\
  normal_pos (-149) (-9) p /\
  F2Q p <= inject_Z 16384.
Proof.
  intros Hi p.
  destruct scaleFactor_spec as [Hs Hsb].
  pose proof (f32_of_u32_normal i ltac:(lia)) as Ha.
  pose proof (f32_mul_rounds _ _ _ _ _ _ Ha Hs ltac:(lia) ltac:(lia)) as Hp.
  fold p in Hp.
  assert (Hle : F2Q p <= inject_Z 16384).
  { assert (H1 : rounds_to (val (2 ^ 24) (-10)) (S754_finite false 8388608 (-9)))
      by rounds_exactly.
    pose proof (rounds_to_mono _ _ _ _ Hp H1) as Hm.
    assert (Hv : val (2 ^ 24) (-10) == inject_Z 16384) by reflexivity.
    assert (Hf : F2Q (S754_finite false 8388608 (-9)) == inject_Z 16384) by reflexivity.
    rewrite Hv, Hf in Hm. apply Hm.
    pose proof (f32_of_u32_mono i (N - 2) ltac:(lia) ltac:(lia)) as Hmono.
    pose proof (normal_pos_value _ _ _ Hs) as [Hspos _].
    pose proof (pow2_pos (-43 + 23)).
    apply Qle_trans with (F2Q (f32_of_u32 (N - 2)) * F2Q (scaleFactor N)).
    - apply Qmult_le_compat_r; [exact Hmono | lra].
    - rewrite Qmult_comm. apply Qlt_le_weak. exact Hsb. }
  split; [exact Hp|]. split; [|exact Hle].
  pose proof (rounds_to_normal _ _ Hp) as Hn.
  pose proof (normal_pos_value _ _ _ Hn) as [Hlo _].
  assert (Hhi : F2Q p < pow2 15).
  { assert (inject_Z 16384 < pow2 15) by reflexivity. lra. }
  pose proof (normal_pos_exponent _ _ _ _ _ Hn Hlo Hhi) as Hn'.
  apply (normal_pos_weaken _ _ _ _ _ Hn'); lia.
Qed.

(** The sum [(i * scaleFactor) + 0.5f] for an index of the ramp. *)
Lemma ramp_sum_spec (i : Z) :
  (1 <= i <= N - 2)%Z ->
  rounds_to (F2Q (f32_mul (f32_of_u32 i) (scaleFactor N)) + (1 # 2))
    (ramp_sum (scaleFactor N) i) /\
  F2Q (ramp_sum (scaleFactor N) i) <= inject_Z 16384 + (1 # 2).
Proof.
  intros Hi.
  destruct (ramp_product_spec i Hi) as (Hp & Hpn & Hple).
  pose proof (f32_add_rounds _ _ _ _ _ _ Hpn f32_half_normal
                ltac:(lia) ltac:(lia) ltac:(lia)) as Hq.
  apply (rounds_to_eq _ (F2Q (f32_mul (f32_of_u32 i) (scaleFactor N)) + (1 # 2)))
    in Hq; [|rewrite F2Q_half; reflexivity].
  fold (ramp_sum (scaleFactor N) i) in Hq.
  split; [exact Hq|].
  assert (H1 : rounds_to (val (32769 * 2 ^ 9) (-10))
                 (S754_finite false 8388864 (-9))) by rounds_exactly.
  pose proof (rounds_to_mono _ _ _ _ Hq H1) as Hm.
  assert (Hv : val (32769 * 2 ^ 9) (-10) == inject_Z 16384 + (1 # 2)) by reflexivity.
  assert (Hf : F2Q (S754_finite false 8388864 (-9)) == inject_Z 16384 + (1 # 2))
    by reflexivity.
  rewrite Hv, Hf in Hm. apply Hm. lra.
Qed.

(** The float handed to the cast, for every index of the ramp: finite,
    positive, between [0.5] and [MAX_COUNT + 1.5]. *)
Lemma ramp_sum_finite (i : Z) :
  (0 <= i <= N - 2)%Z ->
  exists m e,
    ramp_sum (scaleFactor N) i = S754_finite false m e /\
    (1 # 2) <= F2Q (ramp_sum (scaleFactor N) i) <= inject_Z 16384 + (1 # 2).
Proof.
  intros Hi.
  destruct scaleFactor_spec as [Hs _].
  destruct (Z.eq_dec i 0%Z) as [-> | Hnz].
  - rewrite (ramp_sum_zero _ _ _ Hs). exists 8388608%positive, (-24)%Z.
    split; [reflexivity|].
    rewrite F2Q_half. split; [apply Qle_refl | discriminate].
  - destruct (ramp_sum_spec i ltac:(lia)) as [Hq Hle].
    destruct (ramp_product_spec i ltac:(lia)) as (_ & Hpn & _).
    pose proof (normal_pos_value _ _ _ Hpn) as [Hppos _].
    pose proof (pow2_pos (-149 + 23)).
    pose proof (rounds_to_mono _ _ _ _ rounds_to_half Hq ltac:(lra)) as Hlo.
    rewrite F2Q_half in Hlo.
    destruct (rounds_to_normal _ _ Hq) as (m & e & Heq & _ & _).
    exists m, e. split; [exact Heq|]. split; assumption.
Qed.

(** The float handed to the cast grows with the index. *)
Lemma ramp_sum_mono (i j : Z) :
  (0 <= i <= j)%Z -> (j <= N - 2)%Z ->
  F2Q (ramp_sum (scaleFactor N) i) <= F2Q (ramp_sum (scaleFactor N) j).
Proof.
  intros Hij Hj.
  destruct scaleFactor_spec as [Hs _].
  destruct (Z.eq_dec i 0%Z) as [-> | Hnz].
  - rewrite (ramp_sum_zero _ _ _ Hs).
    destruct (ramp_sum_finite j ltac:(lia)) as (_ & _ & _ & Hlo & _).
    rewrite F2Q_half. exact Hlo.
  - destruct (ramp_sum_spec i ltac:(lia)) as [Hqi _].
    destruct (ramp_sum_spec j ltac:(lia)) as [Hqj _].
    apply (rounds_to_mono _ _ _ _ Hqi Hqj).
    apply Qplus_le_l.
    destruct (ramp_product_spec i ltac:(lia)) as (Hpi & _ & _).
    destruct (ramp_product_spec j ltac:(lia)) as (Hpj & _ & _).
    apply (rounds_to_mono _ _ _ _ Hpi Hpj).
    pose proof (normal_pos_value _ _ _ Hs) as [Hspos _].
    pose proof (pow2_pos (-43 + 23)).
    apply Qmult_le_compat_r; [|lra].
    apply f32_of_u32_mono; lia.
Qed.

(** The cast is defined at every index of the ramp, and [rampValue] is
    the floor of the float sum, clamped. *)
Lemma rampValue_spec (i : Z) :
  (0 <= i <= N - 2)%Z ->
  rampValue (scaleFactor N) i
    = Ok (Z.min MAX_COUNT (Qfloor (F2Q (ramp_sum (scaleFactor N) i)))) /\
  (0 <= Qfloor (F2Q (ramp_sum (scaleFactor N) i)))%Z.
Proof.
  intros Hi.
  destruct (ramp_sum_finite i Hi) as (m & e & Heq & Hlo & Hhi).
  unfold rampValue. fold (ramp_sum (scaleFactor N) i).
  assert (H0 : (0 <= Qfloor (F2Q (ramp_sum (scaleFactor N) i)))%Z).
  { change 0%Z with (Qfloor 0). apply Qfloor_resp_le. lra. }
  split; [|exact H0].
  rewrite Heq in *.
  rewrite f32_to_u32_floor.
  - f_equal. unfold MAX_COUNT.
    destruct (Z.ltb_spec 16383 (Qfloor (F2Q (S754_finite false m e)))); lia.
  - assert (inject_Z 16384 + (1 # 2) < inject_Z (2 ^ 32)) by reflexivity. lra.
Qed.

(** The amplitudes of the ramp never decrease. *)
Lemma rampValue_mono (i j ri rj : Z) :
  (0 <= i <= j)%Z -> (j <= N - 2)%Z ->
  rampValue (scaleFactor N) i = Ok ri ->
  rampValue (scaleFactor N) j = Ok rj ->
  (ri <= rj)%Z.
Proof.
  intros Hij Hj Hi' Hj'.
  destruct (rampValue_spec i ltac:(lia)) as [Hri _].
  destruct (rampValue_spec j ltac:(lia)) as [Hrj _].
  rewrite Hri in Hi'. rewrite Hrj in Hj'.
  injection Hi' as <-. injection Hj' as <-.
  pose proof (Qfloor_resp_le _ _ (ramp_sum_mono i j Hij Hj)). lia.
Qed.

End Ramp.

(** * The waveform generator *)

Section Generator.

Lemma store_ok (Buffer : list Z) (i v : Z) :
  (Z.to_nat i < length Buffer)%nat ->
  store Buffer i v = Ok (<[Z.to_nat i := v]> Buffer).
Proof.
  intros Hi. unfold store.
  destruct (Nat.ltb_spec (Z.to_nat i) (length Buffer)); [reflexivity|lia].
Qed.

(** The loop stores one word per index, in place, and touches nothing
    else. *)
Lemma ramp_loop_spec (N : Z) (scale : f32) (count : nat) : forall i Buffer,
  0 <= i ->
  (Z.to_nat i + count <= length Buffer)%nat ->
  (forall k, i <= k < i + Z.of_nat count ->
     exists v, shiftedValue N scale k = Ok v) ->
  ramp_loop count N scale i Buffer =
    Ok (take (Z.to_nat i) Buffer
          ++ (ramp_word N scale <$> seqZ i (Z.of_nat count))
          ++ drop (Z.to_nat i + count) Buffer).
Proof.
  induction count as [|count IH]; intros i Buffer Hi Hlen Hdef.
  - cbn [ramp_loop]. rewrite seqZ_nil by lia. cbn [fmap list_fmap app].
    rewrite Nat.add_0_r, take_drop. reflexivity.
  - cbn [ramp_loop].
    destruct (Hdef i ltac:(lia)) as [v Hv].
    assert (Hw : ramp_word N scale i = v) by (unfold ramp_word; rewrite Hv; reflexivity).
    rewrite Hv, store_ok by lia.
    assert (Hi1 : Z.to_nat (i + 1) = S (Z.to_nat i)).
    { rewrite Z2Nat.inj_add by lia. change (Z.to_nat 1) with 1%nat. lia. }
    rewrite IH.
    + rewrite Hi1.
      rewrite (take_S_r _ _ v) by (apply list_lookup_insert_eq; lia).
      rewrite take_insert_ge by lia.
      rewrite drop_insert_lt by lia.
      rewrite (seqZ_cons i (Z.of_nat (S count))) by lia.
      replace (Z.pred (Z.of_nat (S count))) with (Z.of_nat count) by lia.
      replace (Z.succ i) with (i + 1) by lia.
      cbn [fmap list_fmap]. rewrite Hw, <- app_assoc.
      replace (S (Z.to_nat i) + count)%nat with (Z.to_nat i + S count)%nat by lia.
      reflexivity.
    + lia.
    + rewrite length_insert. lia.
    + intros k Hk. apply Hdef. lia.
Qed.

(** When every index has a defined word, the generator overwrites the
    first [NumSamples] elements with the pattern and leaves the rest. *)
Lemma GenerateRampWave_defined (Buffer : list Z) (N : Z) :
  (Z.to_nat N <= length Buffer)%nat ->
  (forall k, 0 <= k < N -> exists v, shiftedValue N (scaleFactor N) k = Ok v) ->
  GenerateRampWave Buffer N = Ok (ramp_pattern N ++ drop (Z.to_nat N) Buffer).
Proof.
  intros Hlen Hdef. unfold GenerateRampWave, ramp_pattern.
  rewrite ramp_loop_spec.
  - cbn [Z.to_nat take app Nat.add].
    destruct (Z.le_gt_cases 0 N) as [HN|HN].
    + rewrite Z2Nat.id by lia. reflexivity.
    + rewrite !seqZ_nil by lia. reflexivity.
  - lia.
  - cbn [Z.to_nat Nat.add]. exact Hlen.
  - intros k Hk. apply Hdef. lia.
Qed.

Lemma ramp_pattern_length (N : Z) : length (ramp_pattern N) = Z.to_nat N.
Proof. unfold ramp_pattern. rewrite length_fmap, length_seqZ. reflexivity. Qed.

Lemma ramp_pattern_lookup (N i : Z) :
  0 <= i < N ->
  ramp_pattern N !! Z.to_nat i = Some (ramp_word N (scaleFactor N) i).
Proof.
  intros Hi. unfold ramp_pattern.
  rewrite list_lookup_fmap, lookup_seqZ_lt by lia.
  cbn. rewrite Z2Nat.id by lia. reflexivity.
Qed.

(** The last sample is zero. *)
Lemma shiftedValue_last (N : Z) (scale : f32) :
  1 <= N < 2 ^ 32 -> shiftedValue N scale (N - 1) = Ok 0.
Proof.
  intros HN. unfold shiftedValue, u32.
  rewrite Z.mod_small by lia. rewrite Z.eqb_refl. reflexivity.
Qed.

(** Every other sample of a run of three or more is a 14-bit amplitude
    in bits 31:18. *)
Lemma shiftedValue_ramp (N i : Z) :
  3 <= N < 2 ^ 32 -> 0 <= i <= N - 2 ->
  let a := Z.min MAX_COUNT (Qfloor (F2Q (ramp_sum (scaleFactor N) i))) in
  shiftedValue N (scaleFactor N) i = Ok (Z.shiftl a 18) /\ 0 <= a <= MAX_COUNT.
Proof.
  intros HN Hi a.
  destruct (rampValue_spec N HN i Hi) as [Hr H0].
  assert (Ha : 0 <= a <= MAX_COUNT) by (unfold a, MAX_COUNT in *; lia).
  split; [|exact Ha].
  unfold shiftedValue, u32.
  rewrite (Z.mod_small (N - 1)) by lia.
  destruct (Z.eqb_spec i (N - 1)); [lia|].
  rewrite Hr. fold a. f_equal.
  rewrite Z.shiftl_mul_pow2 by lia.
  apply Z.mod_small. unfold MAX_COUNT in Ha.
  change (2 ^ 32) with (2 ^ 14 * 2 ^ 18). change (2 ^ 14) with 16384. lia.
Qed.

Lemma shiftedValue_total (N k : Z) :
  3 <= N < 2 ^ 32 -> 0 <= k < N ->
  exists v, shiftedValue N (scaleFactor N) k = Ok v.
Proof.
  intros HN Hk. destruct (Z.eq_dec k (N - 1)) as [-> | Hne].
  - exists 0. apply shiftedValue_last. lia.
  - destruct (shiftedValue_ramp N k HN ltac:(lia)) as [Hv _].
    eexists. exact Hv.
Qed.

(** Shifting a 14-bit amplitude into bits 31:18 and back. *)
Lemma amplitude_shiftl (a : Z) :
  0 <= a -> amplitude (Z.shiftl a 18) = a /\ Z.land (Z.shiftl a 18) 262143 = 0.
Proof.
  intros Ha. unfold amplitude. split.
  - rewrite Z.shiftr_shiftl_l by lia. apply Z.shiftl_0_r.
  - change 262143 with (Z.ones 18). rewrite Z.land_ones by lia.
    rewrite Z.shiftl_mul_pow2 by lia. apply Z.mod_mul. lia.
Qed.

End Generator.

(** ** The claims about the generator *)

Section GeneratorClaims.

Lemma spec_amplitude_f32_ramp (N i : Z) :
  3 <= N < 2 ^ 32 -> 0 <= i <= N - 2 ->
  spec_amplitude_f32 N i
    = Z.min MAX_COUNT (Qfloor (F2Q (ramp_sum (scaleFactor N) i))).
Proof.
  intros HN Hi. destruct (rampValue_spec N HN i Hi) as [_ H0].
  unfold spec_amplitude_f32, spec_clamp. cbn zeta.
  change (f32_add (f32_mul (f32_of_u32 i)
            (f32_div (f32_of_u32 MAX_COUNT) (f32_of_u32 (N - 2)))) f32_half)
    with (ramp_sum (f32_div (f32_of_u32 MAX_COUNT) (f32_of_u32 (N - 2))) i).
  replace (f32_div (f32_of_u32 MAX_COUNT) (f32_of_u32 (N - 2)))
    with (scaleFactor N).
  - unfold MAX_COUNT in *. lia.
  - unfold scaleFactor, u32. rewrite Z.mod_small by lia. reflexivity.
Qed.

(** C3, as the code has it. For every [NumSamples] from 3 up (within
    [u32]) and a buffer that holds them, the generator returns with the
    first [NumSamples] elements written: the last is 0, and every other
    one is the amplitude of section 4.1, computed in binary32, shifted
    left by 18, so that its top 14 bits are within [0 .. 16383] and its
    low 18 bits are zero. For 256 samples elements 0, 127 and 255 are
    [0], [0x80000000] and [0]. *)
Theorem ramp_samples (N : Z) (Buffer : list Z) :
  3 <= N < 2 ^ 32 ->
  (Z.to_nat N <= length Buffer)%nat ->
  exists out,
    GenerateRampWave Buffer N = Ok out /\
    length out = length Buffer /\
    out !! Z.to_nat (N - 1) = Some 0 /\
    (forall i, 0 <= i < N - 1 ->
       let sample := spec_sample (spec_amplitude_f32 N i) in
       out !! Z.to_nat i = Some sample /\
       0 <= amplitude sample <= 16383 /\
       Z.land sample 262143 = 0) /\
    (N = 256 ->
       out !! 0%nat = Some 0 /\
       out !! 127%nat = Some 2147483648 /\
       out !! 255%nat = Some 0).
Proof.
  intros HN Hlen.
  exists (ramp_pattern N ++ drop (Z.to_nat N) Buffer).
  pose proof (ramp_pattern_length N) as Hpl.
  split.
  { apply GenerateRampWave_defined; [exact Hlen|].
    intros k Hk. apply shiftedValue_total; assumption. }
  split.
  { rewrite length_app, length_drop, Hpl. lia. }
  split.
  { rewrite lookup_app_l by lia.
    rewrite ramp_pattern_lookup by lia.
    unfold ramp_word. rewrite shiftedValue_last by lia. reflexivity. }
  split.
  { intros i Hi sample.
    destruct (shiftedValue_ramp N i HN ltac:(lia)) as [Hv Ha].
    assert (Hs : sample =
              Z.shiftl (Z.min MAX_COUNT (Qfloor (F2Q (ramp_sum (scaleFactor N) i)))) 18).
    { unfold sample, spec_sample. rewrite spec_amplitude_f32_ramp by lia. reflexivity. }
    cbn zeta in Hv, Ha.
    destruct (amplitude_shiftl _ (proj1 Ha)) as [Hamp Hland].
    rewrite Hs, Hamp, Hland.
    split; [|unfold MAX_COUNT in *; split; [lia|reflexivity]].
    rewrite lookup_app_l by lia.
    rewrite ramp_pattern_lookup by lia.
    unfold ramp_word. rewrite Hv. reflexivity. }
  intros ->.
  rewrite !lookup_app_l by (rewrite Hpl; cbn; lia).
  vm_compute. auto.
Qed.

(** C7. For every [NumSamples] from 3 up the amplitudes of consecutive
    non-final samples never decrease. *)
Theorem ramp_is_monotone (N : Z) (Buffer : list Z) :
  3 <= N < 2 ^ 32 ->
  (Z.to_nat N <= length Buffer)%nat ->
  exists out,
    GenerateRampWave Buffer N = Ok out /\
    forall i x y,
      0 <= i -> i + 1 <= N - 2 ->
      out !! Z.to_nat i = Some x ->
      out !! Z.to_nat (i + 1) = Some y ->
      amplitude x <= amplitude y.
Proof.
  intros HN Hlen.
  exists (ramp_pattern N ++ drop (Z.to_nat N) Buffer).
  pose proof (ramp_pattern_length N) as Hpl.
  split.
  { apply GenerateRampWave_defined; [exact Hlen|].
    intros k Hk. apply shiftedValue_total; assumption. }
  intros i x y Hi Hi1 Hx Hy.
  rewrite lookup_app_l, ramp_pattern_lookup in Hx by lia.
  rewrite lookup_app_l, ramp_pattern_lookup in Hy by lia.
  destruct (shiftedValue_ramp N i HN ltac:(lia)) as [Hvx Hax].
  destruct (shiftedValue_ramp N (i + 1) HN ltac:(lia)) as [Hvy Hay].
  cbn zeta in *. unfold ramp_word in Hx, Hy.
  rewrite Hvx in Hx. rewrite Hvy in Hy.
  injection Hx as <-. injection Hy as <-.
  destruct (amplitude_shiftl _ (proj1 Hax)) as [-> _].
  destruct (amplitude_shiftl _ (proj1 Hay)) as [-> _].
  pose proof (Qfloor_resp_le _ _
                (ramp_sum_mono N HN i (i + 1) ltac:(lia) ltac:(lia))).
  lia.
Qed.

Lemma shiftedValue_total_short (N k : Z) :
  0 <= N < 2 ^ 32 -> N <> 2 -> 0 <= k < N ->
  exists v, shiftedValue N (scaleFactor N) k = Ok v.
Proof.
  intros HN Hne Hk.
  destruct (Z.le_gt_cases 3 N) as [H3|H3].
  - apply shiftedValue_total; lia.
  - assert (N = 1) by lia. subst N. assert (k = 0) by lia. subst k.
    exists 0. apply (shiftedValue_last 1). lia.
Qed.

(** C8, as the code has it. For every [NumSamples] other than 2, what
    the generator does depends on [NumSamples] alone: two calls with
    the same [NumSamples] write the same pattern whatever the buffers
    held, a call on its own output reproduces it, and nothing but the
    first [NumSamples] elements is written. For 2 samples no call
    produces a sequence: the run is undefined on every buffer. *)
Theorem generate_deterministic_idempotent (N : Z) (Buffer1 Buffer2 : list Z) :
  0 <= N < 2 ^ 32 ->
  (Z.to_nat N <= length Buffer1)%nat ->
  (Z.to_nat N <= length Buffer2)%nat ->
  (N = 2 /\
   GenerateRampWave Buffer1 N = Undefined /\
   GenerateRampWave Buffer2 N = Undefined)
  \/
  (N <> 2 /\
   exists pattern,
     length pattern = Z.to_nat N /\
     GenerateRampWave Buffer1 N = Ok (pattern ++ drop (Z.to_nat N) Buffer1) /\
     GenerateRampWave Buffer2 N = Ok (pattern ++ drop (Z.to_nat N) Buffer2) /\
     GenerateRampWave (pattern ++ drop (Z.to_nat N) Buffer1) N
       = Ok (pattern ++ drop (Z.to_nat N) Buffer1)).
Proof.
  intros HN Hl1 Hl2.
  destruct (Z.eq_dec N 2) as [-> | Hne].
  { left. split; [reflexivity|]. split; reflexivity. }
  right. split; [exact Hne|].
  exists (ramp_pattern N).
  pose proof (ramp_pattern_length N) as Hpl.
  assert (Hdef : forall k, 0 <= k < N ->
            exists v, shiftedValue N (scaleFactor N) k = Ok v).
  { intros k Hk. apply shiftedValue_total_short; assumption. }
  split; [exact Hpl|].
  split; [apply GenerateRampWave_defined; assumption|].
  split; [apply GenerateRampWave_defined; assumption|].
  rewrite GenerateRampWave_defined; [|rewrite length_app; lia|exact Hdef].
  rewrite drop_app_length' by (symmetry; exact Hpl). reflexivity.
Qed.

(** C6, as the code has it. The generator has no length check and no
    way to fail: asked for 0 samples it returns the buffer untouched,
    asked for 1 it stores 0 in element 0 and returns, and asked for 2 it
    divides by zero (the scale factor is +infinity) and runs into the
    undefined conversion of a NaN at index 0, before any store. *)
Theorem no_length_check (x : Z) (Buffer : list Z) :
  GenerateRampWave Buffer 0 = Ok Buffer /\
  GenerateRampWave (x :: Buffer) 1 = Ok (0 :: Buffer) /\
  scaleFactor 2 = S754_infinity false /\
  rampValue (scaleFactor 2) 0 = Undefined /\
  GenerateRampWave Buffer 2 = Undefined.
Proof.
  split; [reflexivity|]. split; [reflexivity|].
  split; [reflexivity|]. split; [reflexivity|].
  reflexivity.
Qed.

End GeneratorClaims.

(** C3 as the specification states it fails twice over: for 2 samples
    the run has no defined result, and the binary32 arithmetic does not
    always agree with the formula read in the rationals (16 samples,
    index 7: the exact product is 8191.5, the float product is below
    it). *)
Lemma ramp_formula_counterexample :
  GenerateRampWave (replicate 2 0) 2 = Undefined /\
  (exists out,
     GenerateRampWave (replicate 16 0) 16 = Ok out /\
     out !! 7%nat = Some (spec_sample 8191)) /\
  spec_amplitude_exact 16 7 = 8192.
Proof.
  split; [reflexivity|]. split; [|reflexivity].
  eexists. split; [vm_compute; reflexivity|]. reflexivity.
Qed.

(** C6 as the specification states it fails for 1 sample: the call
    returns normally and has written element 0. *)
Lemma invalid_length_counterexample :
  GenerateRampWave [7; 7; 7] 1 = Ok [0; 7; 7].
Proof. reflexivity. Qed.

(** C8 as the specification states it fails for 2 samples, a length
    the specification admits: the scale factor is +infinity, the
    conversion at index 0 is undefined, and neither of two calls
    produces a sequence to compare. *)
Lemma undefined_run_counterexample :
  scaleFactor 2 = S754_infinity false /\
  rampValue (scaleFactor 2) 0 = Undefined /\
  GenerateRampWave [0; 0] 2 = Undefined /\
  GenerateRampWave [5; 6; 7] 2 = Undefined.
Proof.
  split; [reflexivity|]. split; [reflexivity|].
  split; reflexivity.
Qed.

Lemma ramp_samples_witness :
  exists out,
    GenerateRampWave (replicate 256 0) 256 = Ok out /\
    out !! 0%nat = Some 0 /\
    out !! 127%nat = Some 2147483648 /\
    out !! 255%nat = Some 0.
Proof.
  destruct (ramp_samples 256 (replicate 256 0)
              ltac:(split; [discriminate | reflexivity])
              ltac:(cbn; lia))
    as (out & Hgen & _ & _ & _ & H256).
  exists out. split; [exact Hgen|]. apply H256. reflexivity.
Defined.

Lemma ramp_is_monotone_witness :
  exists out,
    GenerateRampWave (replicate 8 0) 8 = Ok out /\
    forall x y, out !! 2%nat = Some x -> out !! 3%nat = Some y ->
                amplitude x <= amplitude y.
Proof.
  destruct (ramp_is_monotone 8 (replicate 8 0)
              ltac:(split; [discriminate | reflexivity])
              ltac:(cbn; lia))
    as (out & Hgen & Hmono).
  exists out. split; [exact Hgen|].
  intros x y Hx Hy. apply (Hmono 2 x y); [lia | lia | exact Hx | exact Hy].
Defined.

Lemma generate_deterministic_idempotent_witness :
  exists pattern,
    length pattern = 4%nat /\
    GenerateRampWave [1; 2; 3; 4; 5] 4 = Ok (pattern ++ [5]) /\
    GenerateRampWave [9; 9; 9; 9; 9; 9] 4 = Ok (pattern ++ [9; 9]) /\
    GenerateRampWave (pattern ++ [5]) 4 = Ok (pattern ++ [5]).
Proof.
  destruct (generate_deterministic_idempotent 4 [1; 2; 3; 4; 5] [9; 9; 9; 9; 9; 9]
              ltac:(split; [discriminate | reflexivity])
              ltac:(cbn; lia) ltac:(cbn; lia))
    as [(Habs & _) | (_ & pattern & Hlen & H1 & H2 & H3)].
  - discriminate Habs.
  - exists pattern. auto.
Defined.

(** * Further properties of the streaming loop *)

Section RunShape.
Context {D : Type} {drv : FifoDriver D}.

Implicit Types (st : state D) (len v s : Z).

(** The trace of a run, whole: a series of accepted passes with a clean
    status, then nothing (the program is still in its loop), or the
    short pass, or one more accepted pass whose status shows a fault,
    with the fault handling. *)
Lemma while_loop_shape (fuel : nat) : forall len st,
  length (TxBuffer st) = Z.to_nat NUM_SAMPLES ->
  exists answers tail st',
    outcome_state (while_loop fuel len st) = Some st' /\
    TxBuffer st' = TxBuffer st /\
    trace st' = trace st ++ frames_events (TxBuffer st) len answers ++ tail /\
    Forall (fun vs => NUM_SAMPLES <= fst vs /\
                      Z.land (snd vs) XLLF_INT_ERROR_MASK = 0) answers /\
    ((while_loop fuel len st = Streaming st' /\
      tail = [] /\ length answers = fuel)
     \/ (while_loop fuel len st = Returned XST_FAILURE st' /\
         exists v, v < NUM_SAMPLES /\ tail = short_events v)
     \/ (while_loop fuel len st = Returned XST_FAILURE st' /\
         exists v s, NUM_SAMPLES <= v /\
                     Z.land s XLLF_INT_ERROR_MASK <> 0 /\
                     tail = frame_events v (TxBuffer st) len s
                              ++ fault_events XLLF_INT_ERROR_MASK s)).
Proof.
  induction fuel as [|fuel IH]; intros len st Hlen.
  - exists [], [], st. cbn. rewrite app_nil_r. auto 8.
  - cbn [while_loop].
    destruct (loop_body_cases st len Hlen)
      as [(v & d1 & _ & Hlt & ->)
         | (v & d1 & s & d4 & _ & Hge & _ & [[Hz ->] | [Hnz ->]])].
    + exists [], (short_events v), (mkState (TxBuffer st) d1 (trace st ++ short_events v)).
      cbn [outcome_state TxBuffer trace frames_events flat_map app].
      split; [reflexivity|]. split; [reflexivity|]. split; [reflexivity|].
      split; [constructor|]. right; left. split; [reflexivity|]. eauto.
    + match goal with |- context [while_loop fuel len ?st1] =>
        destruct (IH len st1 Hlen)
          as (answers & tail & st' & Hout & Hbuf & Htr & Hall & Hend)
      end.
      cbn [TxBuffer trace] in Hbuf, Htr, Hend.
      exists ((v, s) :: answers), tail, st'.
      split; [exact Hout|]. split; [exact Hbuf|].
      split.
      { rewrite Htr. cbn [frames_events flat_map fst snd].
        rewrite <- !app_assoc. reflexivity. }
      split; [constructor; [cbn; auto | exact Hall]|].
      destruct Hend as [(Hrun & -> & Hk) | [(Hrun & Hs) | (Hrun & Hf)]].
      * left. cbn [length]. auto.
      * right; left. auto.
      * right; right. auto.
    + exists [], (frame_events v (TxBuffer st) len s
                    ++ fault_events XLLF_INT_ERROR_MASK s),
        (mkState (TxBuffer st) (XLlFifo_IntClear d4 XLLF_INT_ERROR_MASK)
           (trace st ++ frame_events v (TxBuffer st) len s
              ++ fault_events XLLF_INT_ERROR_MASK s)).
      cbn [outcome_state TxBuffer trace frames_events flat_map app].
      split; [reflexivity|]. split; [reflexivity|]. split; [reflexivity|].
      split; [constructor|]. right; right. split; [reflexivity|]. eauto 6.
Qed.

(** [main] up to its loop, with the trace and the device spelt out. *)
Lemma main_init_trace (d : D) :
  let d1 := XLlFifo_IntClear
              (XLlFifo_Reset (XLlFifo_Initialize d XPAR_XLLFIFO_0_BASEADDR))
              4294967295 in
  exists st0,
    main_init d = Ok st0 /\
    length (TxBuffer st0) = Z.to_nat NUM_SAMPLES /\
    GenerateRampWave (replicate (Z.to_nat NUM_SAMPLES) 0) NUM_SAMPLES
      = Ok (TxBuffer st0) /\
    trace st0 = startup_events XPAR_XLLFIFO_0_BASEADDR (fst (XLlFifo_Status d1)) /\
    fifo st0 = snd (XLlFifo_Status d1).
Proof.
  destruct GenerateRampWave_main as (buf & Hgen & Hlen).
  unfold main_init, call_Status, call_IntClear, call_Reset, call_Initialize,
    xil_printf, emit.
  cbn [TxBuffer fifo trace].
  destruct (XLlFifo_Status _) as [s0 d0].
  cbn [TxBuffer fifo trace fst snd]. rewrite Hgen.
  eexists (mkState _ _ _). cbn [TxBuffer trace fifo].
  split; [reflexivity|]. split; [exact Hlen|]. repeat split; reflexivity.
Qed.

Lemma frame_lengths_app tr1 tr2 :
  frame_lengths (tr1 ++ tr2) = frame_lengths tr1 ++ frame_lengths tr2.
Proof. unfold frame_lengths. apply flat_map_app. Qed.

Lemma cleared_masks_app tr1 tr2 :
  cleared_masks (tr1 ++ tr2) = cleared_masks tr1 ++ cleared_masks tr2.
Proof. unfold cleared_masks. apply flat_map_app. Qed.

Lemma frame_lengths_put ws : frame_lengths (map EvTxPutWord ws) = [].
Proof. induction ws as [|w ws IH]; [reflexivity | exact IH]. Qed.

Lemma cleared_masks_put ws : cleared_masks (map EvTxPutWord ws) = [].
Proof. induction ws as [|w ws IH]; [reflexivity | exact IH]. Qed.

Lemma frame_lengths_frame v buf len s :
  frame_lengths (frame_events v buf len s) = [len].
Proof.
  unfold frame_events. rewrite !frame_lengths_app, frame_lengths_put. reflexivity.
Qed.

Lemma cleared_masks_frame v buf len s :
  cleared_masks (frame_events v buf len s) = [].
Proof.
  unfold frame_events. rewrite !cleared_masks_app, cleared_masks_put. reflexivity.
Qed.

Lemma frames_events_app buf len a1 a2 :
  frames_events buf len (a1 ++ a2)
    = frames_events buf len a1 ++ frames_events buf len a2.
Proof. unfold frames_events. apply flat_map_app. Qed.

Lemma pushed_words_frames buf len answers :
  pushed_words (frames_events buf len answers)
    = concat (replicate (length answers) buf).
Proof.
  induction answers as [|[v s] answers IH]; [reflexivity|].
  cbn [frames_events flat_map fst snd length replicate concat].
  rewrite pushed_words_app, pushed_words_frame. f_equal. exact IH.
Qed.

Lemma frame_lengths_frames buf len answers :
  frame_lengths (frames_events buf len answers)
    = replicate (length answers) len.
Proof.
  induction answers as [|[v s] answers IH]; [reflexivity|].
  cbn [frames_events flat_map fst snd length replicate].
  rewrite frame_lengths_app, frame_lengths_frame. cbn [app]. f_equal. exact IH.
Qed.

Lemma cleared_masks_frames buf len answers :
  cleared_masks (frames_events buf len answers) = [].
Proof.
  induction answers as [|[v s] answers IH]; [reflexivity|].
  cbn [frames_events flat_map fst snd].
  rewrite cleared_masks_app, cleared_masks_frame. exact IH.
Qed.

(** A trace that ends with an accepted pass, or with the startup,
    carries no diagnostic. *)
Lemma diagnosis_frame tr v buf len s :
  diagnosis (tr ++ frame_events v buf len s) = None.
Proof.
  unfold diagnosis, frame_events.
  rewrite !app_assoc, rev_app_distr. reflexivity.
Qed.

Lemma diagnosis_frames base s0 buf len answers :
  diagnosis (startup_events base s0 ++ frames_events buf len answers) = None.
Proof.
  destruct answers as [|a answers] using rev_ind; [reflexivity|].
  rewrite frames_events_app, app_assoc.
  cbn [frames_events flat_map]. rewrite app_nil_r.
  apply diagnosis_frame.
Qed.

(** X1. The whole trace of [main]: the startup, a series of whole frames
    each followed by a clean status, and then nothing (the program is
    still in its loop), or the pass that found too little room, or one
    more whole frame with the fault handling. Every frame is
    [NUM_SAMPLES] words followed by one commit of [NUM_SAMPLES * 4]
    bytes; nothing is ever committed short. *)
Theorem main_streams_whole_frames (fuel : nat) (d : D) :
  exists st s0 answers tail,
    outcome_state (main fuel d) = Some st /\
    trace st = startup_events XPAR_XLLFIFO_0_BASEADDR s0
                 ++ frames_events (TxBuffer st) (NUM_SAMPLES * 4) answers
                 ++ tail /\
    Forall (fun vs => NUM_SAMPLES <= fst vs /\
                      Z.land (snd vs) XLLF_INT_ERROR_MASK = 0) answers /\
    ((main fuel d = Streaming st /\ tail = [] /\ length answers = fuel)
     \/ (main fuel d = Returned XST_FAILURE st /\
         exists v, v < NUM_SAMPLES /\ tail = short_events v)
     \/ (main fuel d = Returned XST_FAILURE st /\
         exists v s, NUM_SAMPLES <= v /\
                     Z.land s XLLF_INT_ERROR_MASK <> 0 /\
                     tail = frame_events v (TxBuffer st) (NUM_SAMPLES * 4) s
                              ++ fault_events XLLF_INT_ERROR_MASK s)).
Proof.
  unfold main.
  destruct (main_init_trace d) as (st0 & -> & Hlen & _ & Htr0 & _).
  cbn zeta. change (u32 (NUM_SAMPLES * 4)) with (NUM_SAMPLES * 4).
  destruct (while_loop_shape fuel (NUM_SAMPLES * 4) st0 Hlen)
    as (answers & tail & st & Hout & Hbuf & Htr & Hall & Hend).
  eexists st, _, answers, tail.
  split; [exact Hout|]. rewrite Hbuf.
  split; [rewrite Htr, Htr0; reflexivity|].
  split; [exact Hall|]. exact Hend.
Qed.

(** X2. The status read after the reset is not looked at: whatever the
    device answers there, [main] generates the pattern and makes its
    first vacancy query. *)
Theorem reset_status_is_not_checked (fuel : nat) (d : D) :
  exists st s0 v rest,
    outcome_state (main (S fuel) d) = Some st /\
    trace st = startup_events XPAR_XLLFIFO_0_BASEADDR s0
                 ++ EvTxVacancy v :: rest.
Proof.
  unfold main.
  destruct (main_init_trace d) as (st0 & -> & Hlen & _ & Htr0 & _).
  cbn zeta.
  destruct (while_loop_shape (S fuel) (u32 (NUM_SAMPLES * 4)) st0 Hlen)
    as (answers & tail & st & Hout & _ & Htr & _ & Hend).
  rewrite Htr0 in Htr.
  destruct answers as [|[v s] answers].
  - destruct Hend as [(_ & _ & Hk) | [(_ & v & _ & ->) | (_ & v & s & _ & _ & ->)]].
    + discriminate Hk.
    + eexists st, _, v, _. split; [exact Hout|]. rewrite Htr. reflexivity.
    + eexists st, _, v, _. split; [exact Hout|]. rewrite Htr. reflexivity.
  - eexists st, _, v, _. split; [exact Hout|]. rewrite Htr. reflexivity.
Qed.

(** X3. [XLlFifo_IntClear] is called once at startup with all bits set, and
    once more, with the error mask, exactly when the run ends on a
    transmission fault: an accepted pass never clears anything. *)
Theorem faults_cleared_only_on_fault_path (fuel : nat) (d : D) :
  exists st,
    outcome_state (main fuel d) = Some st /\
    cleared_masks (trace st) =
      4294967295 ::
      match diagnosis (trace st) with
      | Some (TransmissionFault _) => [XLLF_INT_ERROR_MASK]
      | _ => []
      end.
Proof.
  unfold main.
  destruct (main_init_trace d) as (st0 & -> & Hlen & _ & Htr0 & _).
  cbn zeta.
  destruct (while_loop_shape fuel (u32 (NUM_SAMPLES * 4)) st0 Hlen)
    as (answers & tail & st & Hout & Hbuf & Htr & _ & Hend).
  exists st. split; [exact Hout|].
  rewrite Htr, Htr0.
  rewrite !cleared_masks_app, cleared_masks_frames.
  destruct Hend as [(_ & -> & _) | [(_ & v & _ & ->) | (_ & v & s & _ & _ & ->)]].
  - rewrite !app_nil_r, diagnosis_frames. reflexivity.
  - rewrite (app_assoc (startup_events _ _)). unfold short_events.
    rewrite diagnosis_short. reflexivity.
  - rewrite (app_assoc (startup_events _ _)), diagnosis_frame_fault.
    rewrite cleared_masks_app, cleared_masks_frame. reflexivity.
Qed.

End RunShape.

Section PushedWords.

Lemma ramp_word_dac (N i : Z) :
  3 <= N < 2 ^ 32 -> 0 <= i < N -> dac_word (ramp_word N (scaleFactor N) i).
Proof.
  intros HN Hi. unfold ramp_word, dac_word.
  destruct (Z.eq_dec i (N - 1)) as [-> | Hne].
  - rewrite shiftedValue_last by lia.
    split; [split; [lia | reflexivity] | reflexivity].
  - destruct (shiftedValue_ramp N i HN ltac:(lia)) as [-> Ha].
    cbn zeta in *.
    destruct (amplitude_shiftl _ (proj1 Ha)) as [_ Hland].
    split; [|exact Hland].
    rewrite Z.shiftl_mul_pow2 by lia. unfold MAX_COUNT in *.
    change (2 ^ 32) with (16384 * 2 ^ 18). lia.
Qed.

(** Every word of the pattern is a 14-bit code in bits 31:18. *)
Lemma ramp_pattern_dac_words (N : Z) :
  3 <= N < 2 ^ 32 -> Forall dac_word (ramp_pattern N).
Proof.
  intros HN. unfold ramp_pattern. apply Forall_fmap, Forall_seqZ.
  intros i Hi. apply ramp_word_dac; [exact HN | lia].
Qed.

Lemma Ok_inj {A : Type} (a b : A) : Ok a = Ok b -> a = b.
Proof. intros H. injection H as ->. reflexivity. Qed.

Lemma main_buffer_dac_words (buf : list Z) :
  GenerateRampWave (replicate (Z.to_nat NUM_SAMPLES) 0) NUM_SAMPLES = Ok buf ->
  Forall dac_word buf.
Proof.
  intros Hgen.
  rewrite GenerateRampWave_defined in Hgen.
  - apply Ok_inj in Hgen. rewrite <- Hgen. apply Forall_app. split.
    + apply ramp_pattern_dac_words. unfold NUM_SAMPLES. lia.
    + rewrite drop_ge by (rewrite length_replicate; lia). constructor.
  - rewrite length_replicate. lia.
  - intros k Hk. apply shiftedValue_total; [unfold NUM_SAMPLES; lia | exact Hk].
Qed.

End PushedWords.

Section DeviceFacts.
Context {D : Type} {drv : FifoDriver D}.

(** X4. Generator and loop together: whatever the device answers and
    however long the run, every word [main] hands to
    [XLlFifo_TxPutWord] is a [u32] with its low 18 bits zero. *)
Theorem only_dac_words_are_pushed (fuel : nat) (d : D) :
  exists st,
    outcome_state (main fuel d) = Some st /\
    Forall dac_word (pushed_words (trace st)).
Proof.
  unfold main.
  destruct (main_init_trace d) as (st0 & -> & Hlen & Hgen & Htr0 & _).
  cbn zeta.
  pose proof (main_buffer_dac_words _ Hgen) as Hbuf.
  destruct (while_loop_shape fuel (u32 (NUM_SAMPLES * 4)) st0 Hlen)
    as (answers & tail & st & Hout & _ & Htr & _ & Hend).
  exists st. split; [exact Hout|].
  rewrite Htr, Htr0, !pushed_words_app, pushed_words_frames.
  apply Forall_app. split; [constructor|].
  apply Forall_app. split.
  - apply Forall_concat, Forall_replicate. exact Hbuf.
  - destruct Hend as [(_ & -> & _) | [(_ & v & _ & ->) | (_ & v & s & _ & _ & ->)]].
    + constructor.
    + constructor.
    + rewrite pushed_words_app, pushed_words_frame. cbn. rewrite app_nil_r.
      exact Hbuf.
Qed.

Lemma always_ready_after_words (I : D -> Prop) (ws : list Z) :
  always_ready I -> forall d, I d -> I (device_after_words d ws).
Proof.
  intros Hready. induction ws as [|w ws IH]; intros d Hd; [exact Hd|].
  cbn [device_after_words foldl]. apply IH.
  destruct (Hready d Hd) as (_ & _ & _ & _ & _ & Hput & _). apply Hput.
Qed.

(** With room and no fault, a pass over a full buffer continues. *)
Lemma loop_body_ready (I : D -> Prop) (len : Z) (st : state D) :
  always_ready I -> I (fifo st) ->
  length (TxBuffer st) = Z.to_nat NUM_SAMPLES ->
  exists v s d4,
    I d4 /\
    loop_body len st =
      Continue (mkState (TxBuffer st) d4
                  (trace st ++ frame_events v (TxBuffer st) len s)).
Proof.
  intros Hready Hd Hlen.
  destruct (Hready _ Hd) as (_ & _ & _ & _ & Hvac & _ & _ & Hroom & _).
  destruct (XLlFifo_iTxVacancy (fifo st)) as [v d1] eqn:Hv.
  cbn [fst snd] in Hvac, Hroom.
  pose proof (always_ready_after_words I (TxBuffer st) Hready d1 Hvac) as Hd2.
  destruct (Hready _ Hd2) as (_ & _ & _ & _ & _ & _ & Hset & _).
  specialize (Hset len).
  destruct (Hready _ Hset) as (_ & _ & _ & Hst & _ & _ & _ & _ & Hclean).
  destruct (XLlFifo_Status
              (XLlFifo_TxSetLen (device_after_words d1 (TxBuffer st)) len))
    as [s d4] eqn:Hs.
  cbn [fst snd] in Hst, Hclean.
  exists v, s, d4. split; [exact Hst|].
  rewrite (loop_body_frame st len v d1 s d4 Hv Hroom Hlen Hs), Hclean.
  reflexivity.
Qed.

Lemma while_loop_ready (I : D -> Prop) (fuel : nat) : forall len st,
  always_ready I -> I (fifo st) ->
  length (TxBuffer st) = Z.to_nat NUM_SAMPLES ->
  exists st' answers,
    while_loop fuel len st = Streaming st' /\
    TxBuffer st' = TxBuffer st /\
    length answers = fuel /\
    trace st' = trace st ++ frames_events (TxBuffer st) len answers.
Proof.
  induction fuel as [|fuel IH]; intros len st Hready Hd Hlen.
  - exists st, []. cbn. rewrite app_nil_r. auto.
  - cbn [while_loop].
    destruct (loop_body_ready I len st Hready Hd Hlen) as (v & s & d4 & Hd4 & ->).
    destruct (IH len (mkState (TxBuffer st) d4
                        (trace st ++ frame_events v (TxBuffer st) len s))
                Hready Hd4 Hlen)
      as (st' & answers & Hrun & Hbuf & Hk & Htr).
    cbn [TxBuffer trace] in Hbuf, Htr.
    exists st', ((v, s) :: answers).
    split; [exact Hrun|]. split; [exact Hbuf|]. split; [cbn; lia|].
    rewrite Htr. cbn [frames_events flat_map fst snd].
    rewrite <- !app_assoc. reflexivity.
Qed.

(** X5. A device that always has room for a frame and never reports an
    error bit keeps [main] in its loop for ever: after any number of
    passes the program has not returned, and it has committed exactly
    one frame of [NUM_SAMPLES * 4] bytes per pass. *)
Theorem ready_device_never_returns (I : D -> Prop) (d : D) (fuel : nat) :
  always_ready I -> I d ->
  exists st,
    main fuel d = Streaming st /\
    frame_lengths (trace st) = replicate fuel (NUM_SAMPLES * 4) /\
    pushed_words (trace st) = concat (replicate fuel (TxBuffer st)).
Proof.
  intros Hready Hd. unfold main.
  destruct (main_init_trace d) as (st0 & -> & Hlen & _ & Htr0 & Hfifo).
  cbn zeta in *. change (u32 (NUM_SAMPLES * 4)) with (NUM_SAMPLES * 4).
  assert (Hd0 : I (fifo st0)).
  { rewrite Hfifo.
    destruct (Hready _ Hd) as (Hinit & _).
    destruct (Hready _ (Hinit XPAR_XLLFIFO_0_BASEADDR)) as (_ & Hreset & _).
    destruct (Hready _ Hreset) as (_ & _ & Hclr & _).
    destruct (Hready _ (Hclr 4294967295)) as (_ & _ & _ & Hst & _).
    exact Hst. }
  destruct (while_loop_ready I fuel (NUM_SAMPLES * 4) st0 Hready Hd0 Hlen)
    as (st & answers & Hrun & Hbuf & Hk & Htr).
  exists st. split; [exact Hrun|].
  rewrite Htr, Htr0, Hbuf, frame_lengths_app, pushed_words_app,
    frame_lengths_frames, pushed_words_frames, Hk.
  split; reflexivity.
Qed.

End DeviceFacts.

Lemma mock_idle_ready : always_ready (drv := mock_driver) mock_idle.
Proof.
  intros [vs ss ws fs] [Hv Hs]. cbn in Hv, Hs. subst vs ss.
  unfold mock_idle. cbn. repeat split; try reflexivity.
  vm_compute. discriminate.
Qed.

Lemma ready_device_never_returns_witness :
  exists st,
    main 3 (mkMock [] [] [] []) = Streaming st /\
    frame_lengths (trace st) = [1024; 1024; 1024].
Proof.
  destruct (ready_device_never_returns (drv := mock_driver) mock_idle
              (mkMock [] [] [] []) 3 mock_idle_ready
              (conj eq_refl eq_refl))
    as (st & Hrun & Hfl & _).
  exists st. split; [exact Hrun | exact Hfl].
Defined.

(** * Further properties of the waveform generator *)

Section DivisionBelow.

(** The quotient of two positive normal numbers, bounded on both sides:
    its mantissa is within two units of the exact quotient. *)
Lemma f32_div_normal_both (mx my : positive) (ex ey : Z) :
  2 ^ 23 <= Zpos mx < 2 ^ 24 -> 2 ^ 23 <= Zpos my < 2 ^ 24 ->
  -149 <= ex - ey - 24 -> ex - ey - 23 <= 103 ->
  exists R n,
    f32_div (S754_finite false mx ex) (S754_finite false my ey)
      = round_finish R (ex - ey - 24 + n) /\
    2 ^ 23 <= R <= 2 ^ 24 /\ 0 <= n <= 1 /\
    (R - 1) * 2 ^ n * Zpos my <= Zpos mx * 2 ^ 24 /\
    Zpos mx * 2 ^ 24 < (R * 2 ^ n + 2) * Zpos my.
Proof.
  intros Hmx Hmy Hlo Hhi.
  unfold f32_div. cbn [SFdiv xorb]. unfold SFdiv_core_binary.
  rewrite !(Zdigits2_unique _ 24) by (change (24 - 1) with 23; lia).
  rewrite fexp32_normal by lia.
  replace (Z.min (24 + ex - (24 + ey) - 24) (ex - ey)) with (ex - ey - 24) by lia.
  replace (ex - ey - (ex - ey - 24)) with 24 by lia.
  rewrite Z.shiftl_mul_pow2 by lia.
  destruct (Z.div_eucl (Zpos mx * 2 ^ 24) (Zpos my)) as [q r] eqn:Hdiv.
  assert (Hq : q = Zpos mx * 2 ^ 24 / Zpos my).
  { unfold Z.div. rewrite Hdiv. reflexivity. }
  assert (Hqlo : 2 ^ 23 <= q).
  { rewrite Hq. apply Z.div_le_lower_bound; [lia|].
    change (2 ^ 24) with (2 * 2 ^ 23) in *. nia. }
  assert (Hqhi : q < 2 ^ 25).
  { rewrite Hq. apply Z.div_lt_upper_bound; [lia|].
    change (2 ^ 25) with (2 * 2 ^ 24). change (2 ^ 24) with (2 * 2 ^ 23) in *. nia. }
  assert (Hqmul : q * Zpos my <= Zpos mx * 2 ^ 24).
  { rewrite Hq, Z.mul_comm. apply Z.mul_div_le. lia. }
  assert (Hqsucc : Zpos mx * 2 ^ 24 < (q + 1) * Zpos my).
  { pose proof (Z.mul_succ_div_gt (Zpos mx * 2 ^ 24) (Zpos my) ltac:(lia)) as H.
    rewrite <- Hq in H. lia. }
  rewrite binary_round_aux_unfold. unfold shr_fexp.
  set (l := new_location (Zpos my) r).
  destruct (Z.lt_ge_cases q (2 ^ 24)) as [Hsmall|Hbig].
  - rewrite (Zdigits2_unique q 24) by (change (24 - 1) with 23; lia).
    rewrite fexp32_normal by lia.
    replace (24 + (ex - ey - 24) - 24 - (ex - ey - 24)) with 0 by lia.
    cbn [shr]. rewrite loc_of_shr_record_of_loc, shr_m_shr_record_of_loc.
    pose proof (round_nearest_even_bounds q l) as HR.
    exists (round_nearest_even q l), 0.
    rewrite round_tail_finish by lia.
    replace (ex - ey - 24 + 0) with (ex - ey - 24) by lia.
    split; [reflexivity|]. split; [lia|]. split; [lia|].
    change (2 ^ 0) with 1.
    set (R := round_nearest_even q l) in *.
    split.
    + apply Z.le_trans with (q * Zpos my); [|exact Hqmul].
      apply Z.mul_le_mono_nonneg_r; lia.
    + apply Z.lt_le_trans with ((q + 1) * Zpos my); [exact Hqsucc|].
      apply Z.mul_le_mono_nonneg_r; lia.
  - rewrite (Zdigits2_unique q 25) by (change (25 - 1) with 24; lia).
    rewrite fexp32_normal by lia.
    replace (25 + (ex - ey - 24) - 24 - (ex - ey - 24)) with 1 by lia.
    cbn [shr SpecFloat.iter_pos].
    set (rec := shr_1 (shr_record_of_loc q l)).
    assert (Hm : shr_m rec = q / 2).
    { subst rec. rewrite shr_m_shr_1; rewrite shr_m_shr_record_of_loc; [reflexivity|lia]. }
    pose proof (round_nearest_even_bounds (shr_m rec) (loc_of_shr_record rec)) as HR.
    assert (Hhalf : 2 ^ 23 <= q / 2 < 2 ^ 24).
    { split.
      - apply Z.div_le_lower_bound; [lia|]. change (2 ^ 24) with (2 * 2 ^ 23) in *. lia.
      - apply Z.div_lt_upper_bound; [lia|]. change (2 ^ 25) with (2 * 2 ^ 24) in *. lia. }
    exists (round_nearest_even (shr_m rec) (loc_of_shr_record rec)), 1.
    rewrite round_tail_finish by lia.
    split; [reflexivity|]. split; [lia|]. split; [lia|].
    change (2 ^ 1) with 2.
    set (R := round_nearest_even (shr_m rec) (loc_of_shr_record rec)) in *.
    pose proof (Z.div_mod q 2 ltac:(lia)) as Hq2.
    pose proof (Z.mod_pos_bound q 2 ltac:(lia)) as Hr2.
    assert (Hle : (R - 1) * 2 <= q) by lia.
    assert (Hge : q + 1 <= R * 2 + 2) by lia.
    split.
    + apply Z.le_trans with (q * Zpos my); [|exact Hqmul].
      apply Z.mul_le_mono_nonneg_r; lia.
    + apply Z.lt_le_trans with ((q + 1) * Zpos my); [exact Hqsucc|].
      apply Z.mul_le_mono_nonneg_r; lia.
Qed.

End DivisionBelow.

Section RampEnds.

Local Open Scope Q_scope.

Variable N : Z.
Hypothesis HN : (3 <= N < 2 ^ 32)%Z.

(** Scaling the float of [NumSamples - 2] by the scale factor gives
    [MAX_COUNT] to within [2^-9]. *)
Lemma scaleFactor_tight :
  (16776190 # 1024) < F2Q (scaleFactor N) * F2Q (f32_of_u32 (N - 2))
    < (16776194 # 1024).
Proof.
  unfold scaleFactor, u32.
  rewrite (Z.mod_small (N - 2)) by lia.
  change (f32_of_u32 MAX_COUNT) with (S754_finite false 16776192 (-10)).
  destruct (f32_of_u32_normal (N - 2) ltac:(lia)) as (mb & eb & -> & Hmb & Heb).
  destruct (f32_div_normal_both 16776192 mb (-10) eb ltac:(cbn; lia) Hmb
              ltac:(lia) ltac:(lia)) as (R & n & -> & HR & Hn & Hup & Hdn).
  rewrite F2Q_round_finish by exact HR. cbn [F2Q].
  assert (HZ : (16776190 * 2 ^ 24 < R * Zpos mb * 2 ^ n < 16776194 * 2 ^ 24)%Z).
  { assert (Hn' : n = 0%Z \/ n = 1%Z) by lia.
    destruct Hn' as [-> | ->];
      [change (2 ^ 0)%Z with 1%Z in * | change (2 ^ 1)%Z with 2%Z in *]; nia. }
  assert (Hv : val R (-10 - eb - 24 + n) * (inject_Z (Zpos mb) * pow2 eb)
               == inject_Z (R * Zpos mb * 2 ^ n) * pow2 (-34)).
  { unfold val. rewrite !inject_Z_mult, <- (pow2_Z n) by lia.
    replace (-10 - eb - 24 + n)%Z with (-34 + n + - eb)%Z by lia.
    rewrite !pow2_add.
    assert (He : pow2 (- eb) * pow2 eb == 1).
    { rewrite <- pow2_add. replace (- eb + eb)%Z with 0%Z by lia. reflexivity. }
    transitivity (inject_Z R * inject_Z (Zpos mb) * pow2 n * pow2 (-34)
                  * (pow2 (- eb) * pow2 eb)); [ring|].
    rewrite He. ring. }
  rewrite Hv.
  assert (Hlo : inject_Z (16776190 * 2 ^ 24) * pow2 (-34) == 16776190 # 1024)
    by reflexivity.
  assert (Hhi : inject_Z (16776194 * 2 ^ 24) * pow2 (-34) == 16776194 # 1024)
    by reflexivity.
  rewrite <- Hlo, <- Hhi.
  pose proof (pow2_pos (-34)).
  destruct HZ as [HZ1 HZ2]. rewrite Zlt_Qlt in HZ1, HZ2.
  split; nra.
Qed.

(** The float handed to the cast never reaches [MAX_COUNT + 1]. *)
Lemma ramp_sum_upper (i : Z) :
  (0 <= i <= N - 2)%Z ->
  F2Q (ramp_sum (scaleFactor N) i) <= 16776706 # 1024.
Proof.
  intros Hi.
  destruct (scaleFactor_spec N HN) as [Hs _].
  destruct (Z.eq_dec i 0%Z) as [-> | Hnz].
  - rewrite (ramp_sum_zero _ _ _ Hs), F2Q_half. discriminate.
  - destruct (ramp_product_spec N HN i ltac:(lia)) as (Hp & _ & _).
    destruct (ramp_sum_spec N HN i ltac:(lia)) as [Hq _].
    destruct scaleFactor_tight as [_ Htop].
    pose proof (f32_of_u32_mono i (N - 2) ltac:(lia) ltac:(lia)) as Hmono.
    pose proof (normal_pos_value _ _ _ Hs) as [Hspos _].
    pose proof (pow2_pos (-43 + 23)).
    assert (Hprod : F2Q (f32_of_u32 i) * F2Q (scaleFactor N) <= 16776194 # 1024).
    { apply Qle_trans with (F2Q (f32_of_u32 (N - 2)) * F2Q (scaleFactor N)).
      - apply Qmult_le_compat_r; [exact Hmono | lra].
      - rewrite Qmult_comm. apply Qlt_le_weak. exact Htop. }
    assert (H1 : rounds_to (val 16776194 (-10)) (S754_finite false 16776194 (-10)))
      by rounds_exactly.
    assert (Hv1 : val 16776194 (-10) == 16776194 # 1024) by reflexivity.
    assert (Hf1 : F2Q (S754_finite false 16776194 (-10)) == 16776194 # 1024)
      by reflexivity.
    pose proof (rounds_to_mono _ _ _ _ Hp H1 ltac:(rewrite Hv1; exact Hprod)) as Hple.
    rewrite Hf1 in Hple.
    assert (H2 : rounds_to (val 16776706 (-10)) (S754_finite false 16776706 (-10)))
      by rounds_exactly.
    assert (Hv2 : val 16776706 (-10) == 16776706 # 1024) by reflexivity.
    assert (Hf2 : F2Q (S754_finite false 16776706 (-10)) == 16776706 # 1024)
      by reflexivity.
    pose proof (rounds_to_mono _ _ _ _ Hq H2) as Hqle.
    rewrite Hv2, Hf2 in Hqle. apply Hqle. lra.
Qed.

(** At the last index of the ramp it is at least [MAX_COUNT]. *)
Lemma ramp_sum_top :
  16776702 # 1024 <= F2Q (ramp_sum (scaleFactor N) (N - 2)).
Proof.
  destruct (ramp_product_spec N HN (N - 2) ltac:(lia)) as (Hp & _ & _).
  destruct (ramp_sum_spec N HN (N - 2) ltac:(lia)) as [Hq _].
  destruct scaleFactor_tight as [Hbot _].
  assert (H1 : rounds_to (val 16776190 (-10)) (S754_finite false 16776190 (-10)))
    by rounds_exactly.
  assert (Hv1 : val 16776190 (-10) == 16776190 # 1024) by reflexivity.
  assert (Hf1 : F2Q (S754_finite false 16776190 (-10)) == 16776190 # 1024)
    by reflexivity.
  pose proof (rounds_to_mono _ _ _ _ H1 Hp) as Hple.
  rewrite Hv1, Hf1 in Hple.
  assert (Hp' : 16776190 # 1024
                <= F2Q (f32_mul (f32_of_u32 (N - 2)) (scaleFactor N))).
  { apply Hple. rewrite Qmult_comm. apply Qlt_le_weak. exact Hbot. }
  assert (H2 : rounds_to (val 16776702 (-10)) (S754_finite false 16776702 (-10)))
    by rounds_exactly.
  assert (Hv2 : val 16776702 (-10) == 16776702 # 1024) by reflexivity.
  assert (Hf2 : F2Q (S754_finite false 16776702 (-10)) == 16776702 # 1024)
    by reflexivity.
  pose proof (rounds_to_mono _ _ _ _ H2 Hq) as Hqle.
  rewrite Hv2, Hf2 in Hqle. apply Hqle. lra.
Qed.

End RampEnds.

Section RoundingError.

Local Open Scope Q_scope.

(** Rounding to binary32 changes a value in the normal range by at most
    one part in [2^23]. *)
Lemma rounds_to_error (v : Q) (x : f32) :
  rounds_to v x -> v * (1 - eps32) <= F2Q x <= v * (1 + eps32).
Proof.
  intros (m & e & Hm & Hd & _ & Hv & ->).
  rewrite F2Q_rnd_normal by assumption.
  rewrite <- Hv. clear Hv v.
  pose proof (rne_div_bounds m (2 ^ (Zdigits2 m - 24))) as HR.
  pose proof (Zdigits2_bounds m Hm) as [Hlo _].
  set (n := (Zdigits2 m - 24)%Z) in *.
  set (R := rne_div m (2 ^ n)) in *.
  assert (Hn : (0 <= n)%Z) by (subst n; lia).
  assert (Hp : (0 < 2 ^ n)%Z) by (apply Z.pow_pos_nonneg; lia).
  replace (Zdigits2 m + e - 24)%Z with (e + n)%Z by (subst n; lia).
  rewrite <- (val_shift R e n Hn).
  assert (Hlo' : (2 ^ n * 8388608 <= m)%Z).
  { replace (Zdigits2 m - 1)%Z with (n + 23)%Z in Hlo by (subst n; lia).
    rewrite Z.pow_add_r in Hlo by lia. change (2 ^ 23)%Z with 8388608%Z in Hlo.
    exact Hlo. }
  pose proof (Z.div_mod m (2 ^ n) ltac:(lia)) as Hdm.
  pose proof (Z.mod_pos_bound m (2 ^ n) Hp) as Hmod.
  assert (HA : (m <= R * 2 ^ n + 2 ^ n /\ R * 2 ^ n <= m + 2 ^ n)%Z) by nia.
  unfold val, eps32.
  destruct HA as [HA1 HA2].
  rewrite Zle_Qle in HA1, HA2, Hlo'.
  rewrite ?inject_Z_plus, ?inject_Z_mult in *.
  set (A := inject_Z R * inject_Z (2 ^ n)) in *.
  set (T := inject_Z (2 ^ n)) in *.
  set (M := inject_Z m) in *.
  change (inject_Z 8388608) with (8388608 # 1) in Hlo'.
  pose proof (pow2_pos e) as Hpe.
  split.
  - assert (H : M * (1 - (1 # 8388608)) <= A) by lra.
    assert (H' : 0 <= (A - M * (1 - (1 # 8388608))) * pow2 e)
      by (apply Qmult_le_0_compat; lra).
    lra.
  - assert (H : A <= M * (1 + (1 # 8388608))) by lra.
    assert (H' : 0 <= (M * (1 + (1 # 8388608)) - A) * pow2 e)
      by (apply Qmult_le_0_compat; lra).
    lra.
Qed.

End RoundingError.

Section RampAccuracy.

Local Open Scope Q_scope.

Variable N : Z.
Hypothesis HN : (3 <= N < 2 ^ 32)%Z.

(** The scale factor times the exact [NumSamples - 2] is [MAX_COUNT] to
    within [1/128]. *)
Lemma scaleFactor_error :
  16383 - (1 # 128) <= F2Q (scaleFactor N) * inject_Z (N - 2)
    <= 16383 + (1 # 128).
Proof.
  destruct (scaleFactor_tight N HN) as [Hbot Htop].
  destruct (scaleFactor_spec N HN) as [Hs _].
  pose proof (normal_pos_value _ _ _ Hs) as [Hspos _].
  pose proof (pow2_pos (-43 + 23)) as Hpp.
  pose proof (rounds_to_error _ _ (f32_of_u32_rounds (N - 2) ltac:(lia)))
    as [Hb1 Hb2].
  unfold eps32 in *.
  set (s := F2Q (scaleFactor N)) in *.
  set (b := F2Q (f32_of_u32 (N - 2))) in *.
  set (D := inject_Z (N - 2)) in *.
  assert (H1 : 0 <= s * (b - D * (1 - (1 # 8388608))))
    by (apply Qmult_le_0_compat; lra).
  assert (H2 : 0 <= s * (D * (1 + (1 # 8388608)) - b))
    by (apply Qmult_le_0_compat; lra).
  split; lra.
Qed.

(** The float handed to the cast is within [1/32] of the exact
    [i * MAX_COUNT / (NumSamples - 2) + 1/2]. *)
Lemma ramp_sum_error (i : Z) :
  (0 <= i <= N - 2)%Z ->
  let x := inject_Z i * (inject_Z MAX_COUNT / inject_Z (N - 2)) + (1 # 2) in
  x - (1 # 32) <= F2Q (ramp_sum (scaleFactor N) i) <= x + (1 # 32).
Proof.
  intros Hi x.
  destruct (scaleFactor_spec N HN) as [Hs _].
  assert (HD : 0 < inject_Z (N - 2)).
  { change 0 with (inject_Z 0). rewrite <- Zlt_Qlt. lia. }
  assert (HX : (x - (1 # 2)) * inject_Z (N - 2) == inject_Z i * 16383).
  { subst x. unfold MAX_COUNT. change (inject_Z 16383) with 16383.
    field. lra. }
  destruct (Z.eq_dec i 0%Z) as [-> | Hnz].
  - rewrite (ramp_sum_zero _ _ _ Hs), F2Q_half.
    assert (Hx : x == 1 # 2).
    { subst x. change (inject_Z 0) with 0. rewrite Qmult_0_l. reflexivity. }
    rewrite Hx. split; discriminate.
  - destruct (ramp_product_spec N HN i ltac:(lia)) as (Hp & _ & _).
    destruct (ramp_sum_spec N HN i ltac:(lia)) as [Hq _].
    apply rounds_to_error in Hp, Hq.
    pose proof (rounds_to_error _ _ (f32_of_u32_rounds i ltac:(lia)))
      as [Ha1 Ha2].
    pose proof scaleFactor_error as [HY1 HY2].
    pose proof (normal_pos_value _ _ _ Hs) as [Hspos _].
    pose proof (pow2_pos (-43 + 23)) as Hpp.
    assert (HI1 : 1 <= inject_Z i).
    { change 1 with (inject_Z 1). rewrite <- Zle_Qle. lia. }
    assert (HI2 : inject_Z i <= inject_Z (N - 2)).
    { rewrite <- Zle_Qle. lia. }
    unfold eps32 in *.
    set (s := F2Q (scaleFactor N)) in *.
    set (a := F2Q (f32_of_u32 i)) in *.
    set (p := F2Q (f32_mul (f32_of_u32 i) (scaleFactor N))) in *.
    set (q := F2Q (ramp_sum (scaleFactor N) i)) in *.
    set (D := inject_Z (N - 2)) in *.
    set (I := inject_Z i) in *.
    set (X := x - (1 # 2)) in *.
    (* the exact product, times D *)
    assert (H1 : 0 <= (I * (1 + (1 # 8388608)) - a) * (s * D))
      by (apply Qmult_le_0_compat; lra).
    assert (H2 : 0 <= (a - I * (1 - (1 # 8388608))) * (s * D))
      by (apply Qmult_le_0_compat; lra).
    assert (H3 : 0 <= I * (16383 + (1 # 128) - s * D))
      by (apply Qmult_le_0_compat; lra).
    assert (H4 : 0 <= I * (s * D - (16383 - (1 # 128))))
      by (apply Qmult_le_0_compat; lra).
    assert (Hup : a * s * D <= (X + (1 # 64)) * D) by lra.
    assert (Hdn : (X - (1 # 64)) * D <= a * s * D) by lra.
    apply Qmult_le_r in Hup, Hdn; try exact HD.
    assert (HXle : X * D <= 16383 * D) by lra.
    apply Qmult_le_r in HXle; try exact HD.
    assert (HXge : 0 * D <= X * D) by lra.
    apply Qmult_le_r in HXge; try exact HD.
    destruct Hp as [Hp1 Hp2]. destruct Hq as [Hq1 Hq2].
    assert (Hx : x == X + (1 # 2)) by (subst X; ring).
    rewrite Hx.
    assert (Has : 0 <= a * s) by (apply Qmult_le_0_compat; lra).
    split; lra.
Qed.

(** The exact value itself stays within the scale of the DAC. *)
Lemma exact_ramp_range (i : Z) :
  (0 <= i <= N - 2)%Z ->
  let x := inject_Z i * (inject_Z MAX_COUNT / inject_Z (N - 2)) + (1 # 2) in
  (1 # 2) <= x <= 16383 + (1 # 2).
Proof.
  intros Hi x.
  assert (HD : 0 < inject_Z (N - 2)).
  { change 0 with (inject_Z 0). rewrite <- Zlt_Qlt. lia. }
  assert (HX : (x - (1 # 2)) * inject_Z (N - 2) == inject_Z i * 16383).
  { subst x. unfold MAX_COUNT. change (inject_Z 16383) with 16383.
    field. lra. }
  assert (HI1 : 0 <= inject_Z i).
  { change 0 with (inject_Z 0). rewrite <- Zle_Qle. lia. }
  assert (HI2 : inject_Z i <= inject_Z (N - 2)).
  { rewrite <- Zle_Qle. lia. }
  assert (Hle : (x - (1 # 2)) * inject_Z (N - 2) <= 16383 * inject_Z (N - 2))
    by lra.
  apply Qmult_le_r in Hle; try exact HD.
  assert (Hge : 0 * inject_Z (N - 2) <= (x - (1 # 2)) * inject_Z (N - 2))
    by lra.
  apply Qmult_le_r in Hge; try exact HD.
  split; lra.
Qed.

End RampAccuracy.

Section GeneratorFacts.

Local Open Scope Z_scope.

(** A loop that is to run past the end of the buffer never returns a
    buffer: it stops at an undefined conversion or at the store one past
    the last element. *)
Lemma ramp_loop_overrun (N : Z) (scale : f32) (count : nat) : forall i Buffer,
  0 <= i ->
  (Z.to_nat i <= length Buffer)%nat ->
  (length Buffer < Z.to_nat i + count)%nat ->
  ramp_loop count N scale i Buffer = Undefined.
Proof.
  induction count as [|count IH]; intros i Buffer Hi Hle Hlt; [lia|].
  cbn [ramp_loop].
  destruct (shiftedValue N scale i) as [v|]; [|reflexivity].
  unfold store.
  destruct (Nat.ltb_spec (Z.to_nat i) (length Buffer)) as [Hin|Hout];
    [|reflexivity].
  apply IH.
  - lia.
  - rewrite length_insert. lia.
  - rewrite length_insert. lia.
Qed.

(** X6. The generator trusts its caller for the size of the buffer:
    asked for more samples than the buffer holds, the call is undefined,
    whatever the length asked for. *)
Theorem short_buffer_is_overrun (N : Z) (Buffer : list Z) :
  0 <= N < 2 ^ 32 ->
  (length Buffer < Z.to_nat N)%nat ->
  GenerateRampWave Buffer N = Undefined.
Proof.
  intros HN Hlen. unfold GenerateRampWave.
  apply ramp_loop_overrun; cbn; lia.
Qed.

(** X7. The clamp to [MAX_COUNT] is dead code: for every [NumSamples]
    from 3 up and every non-final index, the conversion to [u32] is
    defined and its value is already within [0 .. MAX_COUNT], so
    [rampValue] is that value unchanged. *)
Theorem clamp_is_never_needed (N i : Z) :
  3 <= N < 2 ^ 32 -> 0 <= i <= N - 2 ->
  exists r,
    f32_to_u32 (f32_add (f32_mul (f32_of_u32 i) (scaleFactor N)) f32_half)
      = Ok r /\
    0 <= r <= MAX_COUNT /\
    rampValue (scaleFactor N) i = Ok r.
Proof.
  intros HN Hi.
  destruct (ramp_sum_finite N HN i Hi) as (m & e & Hsum & Hlo & Hhi).
  pose proof (ramp_sum_upper N HN i Hi) as Hup.
  unfold ramp_sum in Hsum.
  assert (Hcast : f32_to_u32
            (f32_add (f32_mul (f32_of_u32 i) (scaleFactor N)) f32_half)
          = Ok (Qfloor (F2Q (ramp_sum (scaleFactor N) i)))).
  { unfold ramp_sum. rewrite Hsum. apply f32_to_u32_floor.
    fold (ramp_sum (scaleFactor N) i) in Hsum. rewrite <- Hsum.
    eapply Qle_lt_trans; [exact Hhi|]. reflexivity. }
  set (f := Qfloor (F2Q (ramp_sum (scaleFactor N) i))) in *.
  assert (Hf0 : 0 <= f).
  { change 0 with (Qfloor 0). apply Qfloor_resp_le.
    eapply Qle_trans; [|exact Hlo]. discriminate. }
  assert (Hf1 : f <= 16383).
  { change 16383 with (Qfloor (16776706 # 1024)). apply Qfloor_resp_le.
    exact Hup. }
  exists f. split; [exact Hcast|]. split; [unfold MAX_COUNT; lia|].
  unfold rampValue. rewrite Hcast.
  destruct (Z.ltb_spec MAX_COUNT f) as [H|H];
    [unfold MAX_COUNT in H; lia | reflexivity].
Qed.

(** X8. The ramp spans the full scale of the DAC: for every
    [NumSamples] from 3 up the first sample is 0 and the last sample
    before the closing zero carries [MAX_COUNT] ([0xFFFC0000]). *)
Theorem ramp_spans_full_scale (N : Z) (Buffer : list Z) :
  3 <= N < 2 ^ 32 ->
  (Z.to_nat N <= length Buffer)%nat ->
  exists out,
    GenerateRampWave Buffer N = Ok out /\
    out !! 0%nat = Some 0 /\
    out !! Z.to_nat (N - 2) = Some 4294705152 /\
    amplitude 4294705152 = MAX_COUNT.
Proof.
  intros HN Hlen.
  exists (ramp_pattern N ++ drop (Z.to_nat N) Buffer).
  pose proof (ramp_pattern_length N) as Hpl.
  split.
  { apply GenerateRampWave_defined; [exact Hlen|].
    intros k Hk. apply shiftedValue_total; assumption. }
  rewrite !lookup_app_l by (rewrite Hpl; lia).
  change 0%nat with (Z.to_nat 0).
  rewrite !ramp_pattern_lookup by lia.
  unfold ramp_word.
  destruct (scaleFactor_spec N HN) as [Hs _].
  split; [|split; [|reflexivity]].
  - destruct (shiftedValue_ramp N 0 HN ltac:(lia)) as [-> _].
    rewrite (ramp_sum_zero _ _ _ Hs). reflexivity.
  - destruct (shiftedValue_ramp N (N - 2) HN ltac:(lia)) as [-> _].
    pose proof (ramp_sum_upper N HN (N - 2) ltac:(lia)) as Hup.
    pose proof (ramp_sum_top N HN) as Hdn.
    apply Qfloor_resp_le in Hup, Hdn.
    change (Qfloor (16776706 # 1024)) with 16383 in Hup.
    change (Qfloor (16776702 # 1024)) with 16383 in Hdn.
    replace (Qfloor (F2Q (ramp_sum (scaleFactor N) (N - 2)))) with 16383 by lia.
    reflexivity.
Qed.

(** X9. The binary32 arithmetic stays close to the formula on paper:
    for every [NumSamples] from 3 up and every non-final index [i] the
    amplitude lies between the floors of
    [i * MAX_COUNT / (NumSamples - 2) + 1/2 - 1/32] and of the same plus
    [1/32], with exact rational arithmetic. It is therefore never more
    than one count away from the exactly rounded value, and equal to it
    unless the exact value is within [1/32] of a rounding boundary. *)
Theorem ramp_tracks_exact_formula (N i : Z) :
  3 <= N < 2 ^ 32 -> 0 <= i <= N - 2 ->
  exists r,
    rampValue (scaleFactor N) i = Ok r /\
    (let x := (inject_Z i * (inject_Z MAX_COUNT / inject_Z (N - 2)) + (1 # 2))%Q in
     Qfloor (x - (1 # 32)) <= r <= Qfloor (x + (1 # 32))) /\
    Z.abs (r - spec_amplitude_exact N i) <= 1.
Proof.
  intros HN Hi.
  destruct (rampValue_spec N HN i Hi) as [Hr Hf0].
  pose proof (ramp_sum_upper N HN i Hi) as Hup.
  pose proof (ramp_sum_error N HN i Hi) as Herr. cbv zeta in Herr.
  set (q := F2Q (ramp_sum (scaleFactor N) i)) in *.
  assert (Hf1 : Qfloor q <= 16383).
  { change 16383 with (Qfloor (16776706 # 1024)). apply Qfloor_resp_le.
    exact Hup. }
  exists (Qfloor q).
  split; [rewrite Hr; f_equal; unfold MAX_COUNT; lia|].
  unfold spec_amplitude_exact. cbv zeta.
  set (x := (inject_Z i * (inject_Z MAX_COUNT / inject_Z (N - 2)) + (1 # 2))%Q)
    in *.
  destruct Herr as [He1 He2].
  split.
  { split; apply Qfloor_resp_le; lra. }
  pose proof (Qfloor_le q) as Hq1. pose proof (Qlt_floor q) as Hq2.
  pose proof (Qfloor_le x) as Hx1. pose proof (Qlt_floor x) as Hx2.
  rewrite inject_Z_plus in Hq2, Hx2.
  change (inject_Z 1) with 1%Q in Hq2, Hx2.
  assert (H1 : Qfloor q < Qfloor x + 2).
  { rewrite Zlt_Qlt, inject_Z_plus. change (inject_Z 2) with 2%Q. lra. }
  assert (H2 : Qfloor x < Qfloor q + 2).
  { rewrite Zlt_Qlt, inject_Z_plus. change (inject_Z 2) with 2%Q. lra. }
  pose proof (exact_ramp_range N HN i Hi) as [Hr1 Hr2]. fold x in Hr1, Hr2.
  assert (Hx0 : 0 <= Qfloor x).
  { change 0 with (Qfloor 0). apply Qfloor_resp_le. lra. }
  assert (Hx3 : Qfloor x <= 16383).
  { change 16383 with (Qfloor (16383 + (1 # 2))). apply Qfloor_resp_le.
    exact Hr2. }
  unfold spec_clamp, MAX_COUNT. lia.
Qed.

End GeneratorFacts.

Lemma short_buffer_is_overrun_witness :
  GenerateRampWave [0; 0; 0] 4 = Undefined.
Proof.
  apply (short_buffer_is_overrun 4 [0; 0; 0]).
  - split; [discriminate | reflexivity].
  - cbn. lia.
Defined.

Lemma clamp_is_never_needed_witness :
  exists r, 0 <= r <= MAX_COUNT /\ rampValue (scaleFactor 16) 7 = Ok r.
Proof.
  destruct (clamp_is_never_needed 16 7
              ltac:(split; [discriminate | reflexivity])
              ltac:(split; discriminate))
    as (r & _ & Hr & Hv).
  exists r. split; [exact Hr | exact Hv].
Defined.

Lemma ramp_spans_full_scale_witness :
  exists out,
    GenerateRampWave (replicate 5 0) 5 = Ok out /\
    out !! 0%nat = Some 0 /\
    out !! 3%nat = Some 4294705152.
Proof.
  destruct (ramp_spans_full_scale 5 (replicate 5 0)
              ltac:(split; [discriminate | reflexivity])
              ltac:(cbn; lia))
    as (out & Hgen & H0 & Htop & _).
  exists out. split; [exact Hgen|]. split; [exact H0 | exact Htop].
Defined.

Lemma ramp_tracks_exact_formula_witness :
  exists r,
    rampValue (scaleFactor 16) 7 = Ok r /\
    Z.abs (r - spec_amplitude_exact 16 7) <= 1.
Proof.
  destruct (ramp_tracks_exact_formula 16 7
              ltac:(split; [discriminate | reflexivity])
              ltac:(split; discriminate))
    as (r & Hv & _ & Hr).
  exists r. split; [exact Hv | exact Hr].
Defined.
